(** * Sparse sets (package [sparsesets]): a shallow embedding and its properties

    The Go package keeps a subset of [{0, ..., N-1}] in two slices of [N]
    integers, [values] and [positions], and a boundary [size].  The methods
    are embedded as computations over the struct: every slice access is
    bounds-checked as the Go runtime does it and may panic, [Insert] and
    [Remove] may return an error value. *)

From Stdlib Require Import ZArith Lia List.
From stdpp Require Import base tactics option numbers list list_numbers.
From stdpp Require Import strings pretty.

#[local] Open Scope Z_scope.

Module sparsesets.

(** ** Go's [int] *)

(** [int] is a 64-bit two's complement integer; arithmetic wraps around. *)
Definition min_int : Z := - 2 ^ 63.
Definition max_int : Z := 2 ^ 63 - 1.
Definition wrap (z : Z) : Z := (z - min_int) `mod` 2 ^ 64 + min_int.
Definition is_int (z : Z) : Prop := min_int ≤ z ≤ max_int.

(** ** The struct, errors, and computations *)

(** [type Set struct { size int; values []int; positions []int }] *)
Record Set_ : Type := mkSet {
  size : Z;
  values : list Z;
  positions : list Z
}.

(** The value built by
    [fmt.Errorf("elem %d is out of the set range [0, %d)", elem, ss.N())]. *)
Inductive error : Type :=
| Errorf (elem n : Z).

(** A method call on a receiver [ss] either returns a result and leaves the
    struct in some state, or panics; the struct at the time of the panic is
    kept, so that a mutation that precedes a panic stays visible. *)
Inductive outcome (A : Type) : Type :=
| Return (a : A) (ss : Set_)
| Panic (ss : Set_).
Arguments Return {A} a ss.
Arguments Panic {A} ss.

Definition M (A : Type) : Type := Set_ → outcome A.

Definition ret {A} (a : A) : M A := fun ss => Return a ss.

Definition bind {A B} (m : M A) (k : A → M B) : M B :=
  fun ss =>
    match m ss with
    | Return a ss' => k a ss'
    | Panic ss' => Panic ss'
    end.

Notation "'let*' x ':=' m 'in' k" := (bind m (fun x => k))
  (at level 10, x name, m at level 100, k at level 200).
Notation "m ';;' k" := (bind m (fun _ => k))
  (at level 100, k at level 200, right associativity).

(** ** Slices *)

(** [l[i]] as an expression: [None] is the run-time panic
    "index out of range", raised for a negative [i] and for [i >= len(l)]. *)
Definition index (l : list Z) (i : Z) : option Z :=
  if (0 <=? i) && (i <? Z.of_nat (length l)) then l !! Z.to_nat i else None.

(** [l[i] = x]: the same bounds check. *)
Definition update (l : list Z) (i x : Z) : option (list Z) :=
  if (0 <=? i) && (i <? Z.of_nat (length l)) then Some (<[Z.to_nat i := x]> l)
  else None.

(** [l[lo:hi]] for a slice whose capacity is its length ([make([]int, n)]):
    panics unless [0 <= lo <= hi <= len(l)]. *)
Definition slice (l : list Z) (lo hi : Z) : option (list Z) :=
  if (0 <=? lo) && (lo <=? hi) && (hi <=? Z.of_nat (length l))
  then Some (take (Z.to_nat hi - Z.to_nat lo) (drop (Z.to_nat lo) l))
  else None.

Definition get_size : M Z := fun ss => Return (size ss) ss.

Definition set_size (z : Z) : M unit :=
  fun ss => Return tt (mkSet z (values ss) (positions ss)).

Definition load_values (i : Z) : M Z :=
  fun ss =>
    match index (values ss) i with
    | Some v => Return v ss
    | None => Panic ss
    end.

Definition load_positions (i : Z) : M Z :=
  fun ss =>
    match index (positions ss) i with
    | Some v => Return v ss
    | None => Panic ss
    end.

Definition store_values (i x : Z) : M unit :=
  fun ss =>
    match update (values ss) i x with
    | Some l => Return tt (mkSet (size ss) l (positions ss))
    | None => Panic ss
    end.

Definition store_positions (i x : Z) : M unit :=
  fun ss =>
    match update (positions ss) i x with
    | Some l => Return tt (mkSet (size ss) (values ss) l)
    | None => Panic ss
    end.

(** ** The package's functions *)

(** The loop [for i := i0; i < n; i++ { ss.values[i] = i; ss.positions[i] = i }]
    makes [n - i0] trips; it is unrolled on that count.  [i < n <= max_int]
    throughout, so [i++] does not wrap. *)
Fixpoint New_loop (trips : nat) (i : Z) : M unit :=
  match trips with
  | O => ret tt
  | S trips' =>
      store_values i i ;;
      store_positions i i ;;
      New_loop trips' (i + 1)
  end.

(** [New(n)]: [None] is the panic "negative capacity n"; no struct exists
    then.  [make([]int, n)] is a slice of [n] zeros (the allocation itself
    is taken to succeed). *)
Definition New (n : Z) : option Set_ :=
  if n <? 0 then None
  else
    let ss := mkSet 0 (replicate (Z.to_nat n) 0) (replicate (Z.to_nat n) 0) in
    match New_loop (Z.to_nat (n - 0)) 0 ss with
    | Return _ ss' => Some ss'
    | Panic _ => None
    end.

(** [return ss.positions[elem] < ss.size] *)
Definition Contains (elem : Z) : M bool :=
  let* p := load_positions elem in
  let* sz := get_size in
  ret (p <? sz).

(** [return len(ss.values)] *)
Definition N : M Z := fun ss => Return (Z.of_nat (length (values ss))) ss.

(** [return ss.size] *)
Definition Size : M Z := get_size.

Definition swap (p1 p2 : Z) : M unit :=
  if p1 =? p2 then ret tt
  else
    let* v1 := load_values p1 in
    let* v2 := load_values p2 in
    store_values p1 v2 ;;
    store_values p2 v1 ;;
    store_positions v1 p2 ;;
    store_positions v2 p1.

(** [Remove]: the result [None] is the [nil] error. *)
Definition Remove (elem : Z) : M (option error) :=
  let* n := N in
  if elem >=? n then
    let* n' := N in
    ret (Some (Errorf elem n'))
  else
    let* p := load_positions elem in
    let* sz := get_size in
    set_size (wrap (sz - 1)) ;;
    let* sz' := get_size in
    if p >=? sz' then ret None
    else
      let* sz'' := get_size in
      swap p sz'' ;;
      ret None.

Definition Insert (elem : Z) : M (option error) :=
  let* n := N in
  if elem >=? n then
    let* n' := N in
    ret (Some (Errorf elem n'))
  else
    let* p := load_positions elem in
    let* sz := get_size in
    if p <? sz then ret None
    else
      let* sz' := get_size in
      swap p sz' ;;
      let* sz'' := get_size in
      set_size (wrap (sz'' + 1)) ;;
      ret None.

(** [ss.size = 0] *)
Definition Clear : M unit := set_size 0.

(** [return ss.values[:ss.size]] *)
Definition Content : M (list Z) :=
  fun ss =>
    match slice (values ss) 0 (size ss) with
    | Some l => Return l ss
    | None => Panic ss
    end.

(** [return ss.values[ss.size:]] *)
Definition Absent : M (list Z) :=
  fun ss =>
    match slice (values ss) (size ss) (Z.of_nat (length (values ss))) with
    | Some l => Return l ss
    | None => Panic ss
    end.

(** ** Runs *)

(** The mutating calls a client can make. *)
Inductive call : Type :=
| CInsert (elem : Z)
| CRemove (elem : Z)
| CClear.

Definition exec (c : call) : M unit :=
  match c with
  | CInsert elem => Insert elem ;; ret tt
  | CRemove elem => Remove elem ;; ret tt
  | CClear => Clear
  end.

(** A sequence of calls, one after the other on the same receiver; a panic
    ends the run. *)
Fixpoint run (cs : list call) : M unit :=
  match cs with
  | [] => ret tt
  | c :: cs' => exec c ;; run cs'
  end.

(** The states a client can observe: [New(n)] for an [int] [n], followed by
    calls that return. *)
Inductive reachable (n : Z) : Set_ → Prop :=
| reachable_New ss :
    is_int n → New n = Some ss → reachable n ss
| reachable_exec c ss ss' :
    reachable n ss → exec c ss = Return tt ss' → reachable n ss'.

(** ** Invariants *)

(** [values] and [positions] have length [n] and are inverse to each other:
    [values[i] == v] exactly when [positions[v] == i]. *)
Record inverse (n : Z) (vs ps : list Z) : Prop := {
  inverse_values_length : Z.of_nat (length vs) = n;
  inverse_positions_length : Z.of_nat (length ps) = n;
  inverse_index : ∀ i v, index vs i = Some v ↔ index ps v = Some i
}.

(** What every reachable state satisfies. *)
Record wf (n : Z) (ss : Set_) : Prop := {
  wf_inverse : inverse n (values ss) (positions ss);
  wf_capacity : n ≤ max_int;
  wf_size : min_int ≤ size ss ≤ n
}.

(** The invariants of the data model: [wf] and a boundary that is not
    negative. *)
Definition invariant (n : Z) (ss : Set_) : Prop := wf n ss ∧ 0 ≤ size ss.

(** The two arrays are mutual inverses, as indexed reads: for every [i] in
    [[0, n)], [values[positions[i]] == i] and [positions[values[i]] == i]. *)
Definition mutual_inverses (n : Z) (ss : Set_) : Prop :=
  ∀ i, 0 ≤ i < n →
    (∃ p, index (positions ss) i = Some p ∧ index (values ss) p = Some i) ∧
    (∃ v, index (values ss) i = Some v ∧ index (positions ss) v = Some i).

(** [e] occurs exactly once in [l]. *)
Definition once (e : Z) (l : list Z) : Prop := count_occ Z.eq_dec l e = 1%nat.

(** The state after [Insert(elem)] on an absent [elem] found at index [p],
    [v2] being the entry at index [size]. *)
Definition inserted (ss : Set_) (elem p v2 : Z) : Set_ :=
  mkSet (size ss + 1)
    (<[Z.to_nat (size ss) := elem]> (<[Z.to_nat p := v2]> (values ss)))
    (<[Z.to_nat v2 := p]> (<[Z.to_nat elem := size ss]> (positions ss))).

(** [inserts l ss ss']: the calls [Insert(e)] for the [e] of [l], in order,
    each returning the [nil] error, lead from [ss] to [ss']. *)
Fixpoint inserts (l : list Z) (ss ss' : Set_) : Prop :=
  match l with
  | [] => ss' = ss
  | e :: l' => ∃ ss1, Insert e ss = Return None ss1 ∧ inserts l' ss1 ss'
  end.

(** ** Rendering *)

(** The verbs of [fmt.Sprintf] that [String] uses: [%d] of an [int] and
    [%v] of a [bool]. *)
Definition fmt_int (z : Z) : string := pretty z.
Definition fmt_bool (b : bool) : string := if b then "true" else "false".

(** The loop
    [for v, p := range s { bf.WriteString(fmt.Sprintf("%d: %v, ", v, p < ss.size)) }]
    from index [v] on, [bf] being what the builder holds. *)
Fixpoint String_loop (s : list Z) (v : Z) (bf : string) : M string :=
  match s with
  | [] => ret bf
  | p :: s' =>
      let* sz := get_size in
      String_loop s' (v + 1)
        (bf +:+ (fmt_int v +:+ ": " +:+ fmt_bool (p <? sz) +:+ ", "))
  end.

Definition String : M string :=
  fun ss =>
    if Z.of_nat (length (positions ss)) =? 0 then Return "{}" ss
    else
      match slice (positions ss) 0 (Z.of_nat (length (positions ss)) - 1) with
      | None => Panic ss
      | Some s =>
          (let* bf := String_loop s 0 "{" in
           let lv := Z.of_nat (length (positions ss)) - 1 in
           let* lp := load_positions lv in
           let* sz := get_size in
           ret (bf +:+ (fmt_int lv +:+ ": " +:+ fmt_bool (lp <? sz) +:+ "}"))) ss
      end.

(** ** Notions used to state properties *)

(** The boolean [Contains(e)] returns ([false] where it panics). *)
Definition member (ss : Set_) (e : Z) : bool :=
  match Contains e ss with
  | Return b _ => b
  | Panic _ => false
  end.

(** [strings.Join(l, sep)]. *)
Fixpoint join (sep : string) (l : list string) : string :=
  match l with
  | [] => ""
  | x :: l' =>
      match l' with
      | [] => x
      | _ :: _ => x +:+ sep +:+ join sep l'
      end
  end.

(** One entry of the rendering: the element and whether it is a member. *)
Definition entry (ss : Set_) (v : Z) : string :=
  fmt_int v +:+ ": " +:+ fmt_bool (member ss v).

End sparsesets.

Import sparsesets.

(** * Properties *)

(** ** Integers and slices *)

Lemma wrap_int z : is_int z → wrap z = z.
Proof.
  unfold is_int, wrap, min_int, max_int. intros Hz.
  rewrite Z.mod_small; lia.
Qed.

Lemma wrap_below : wrap (min_int - 1) = max_int.
Proof. reflexivity. Qed.

Lemma index_Some l i v :
  index l i = Some v ↔ 0 ≤ i < Z.of_nat (length l) ∧ l !! Z.to_nat i = Some v.
Proof.
  unfold index.
  destruct (Z.leb_spec 0 i), (Z.ltb_spec i (Z.of_nat (length l)));
    simpl; split; try (intros [? ?]); intros; try done; try lia.
Qed.

Lemma index_range l i v : index l i = Some v → 0 ≤ i < Z.of_nat (length l).
Proof. rewrite index_Some. tauto. Qed.

Lemma index_in_range l i :
  0 ≤ i < Z.of_nat (length l) → ∃ v, index l i = Some v.
Proof.
  intros Hi. destruct (lookup_lt_is_Some_2 l (Z.to_nat i)) as [v Hv]; [lia|].
  exists v. by apply index_Some.
Qed.

Lemma index_None l i :
  index l i = None ↔ ¬ (0 ≤ i < Z.of_nat (length l)).
Proof.
  split.
  - intros Hn Hi. destruct (index_in_range l i Hi) as [v Hv]. congruence.
  - intros Hi. destruct (index l i) as [v|] eqn:E; [|done].
    apply index_range in E. tauto.
Qed.

Lemma update_in_range l i x :
  0 ≤ i < Z.of_nat (length l) → update l i x = Some (<[Z.to_nat i := x]> l).
Proof.
  intros Hi. unfold update.
  destruct (Z.leb_spec 0 i), (Z.ltb_spec i (Z.of_nat (length l)));
    simpl; try done; lia.
Qed.

Lemma index_insert l j x i :
  0 ≤ j < Z.of_nat (length l) →
  index (<[Z.to_nat j := x]> l) i = if decide (i = j) then Some x else index l i.
Proof.
  intros Hj. unfold index. rewrite length_insert.
  destruct (Z.leb_spec 0 i), (Z.ltb_spec i (Z.of_nat (length l)));
    simpl; case_decide; try done; try lia.
  - subst. apply list_lookup_insert_eq. lia.
  - apply list_lookup_insert_ne. lia.
Qed.

Lemma index_insert_id l i v :
  index l i = Some v → <[Z.to_nat i := v]> l = l.
Proof. rewrite index_Some. intros [_ Hl]. by apply list_insert_id. Qed.

(** ** The inverse pair *)

Section inverse.
Context {n : Z} {vs ps : list Z} (Hinv : inverse n vs ps).

Lemma inverse_value i : 0 ≤ i < n → ∃ v, index vs i = Some v ∧ 0 ≤ v < n.
Proof using Hinv.
  intros Hi. destruct Hinv as [Hv Hp Hvp].
  destruct (index_in_range vs i) as [v E]; [lia|].
  exists v. split; [done|]. apply Hvp, index_range in E. lia.
Qed.

Lemma inverse_position v : 0 ≤ v < n → ∃ p, index ps v = Some p ∧ 0 ≤ p < n.
Proof using Hinv.
  intros Hi. destruct Hinv as [Hv Hp Hvp].
  destruct (index_in_range ps v) as [p E]; [lia|].
  exists p. split; [done|]. apply Hvp, index_range in E. lia.
Qed.

Lemma inverse_values_inj i j v :
  index vs i = Some v → index vs j = Some v → i = j.
Proof using Hinv.
  destruct Hinv as [_ _ Hvp]. intros Hi%Hvp Hj%Hvp. congruence.
Qed.

(** Exchanging the entries at [p1] and [p2] of [values] and recording the
    new places in [positions] keeps the pair inverse. *)
Lemma inverse_exchange p1 p2 v1 v2 :
  index vs p1 = Some v1 → index vs p2 = Some v2 →
  inverse n
    (<[Z.to_nat p2 := v1]> (<[Z.to_nat p1 := v2]> vs))
    (<[Z.to_nat v2 := p1]> (<[Z.to_nat v1 := p2]> ps)).
Proof using Hinv.
  intros H1 H2. destruct Hinv as [Hv Hp Hvp].
  pose proof (index_range _ _ _ H1) as R1.
  pose proof (index_range _ _ _ H2) as R2.
  pose proof (index_range _ _ _ (proj1 (Hvp _ _) H1)) as R3.
  pose proof (index_range _ _ _ (proj1 (Hvp _ _) H2)) as R4.
  split; rewrite ?length_insert; try done.
  intros i v.
  rewrite !index_insert by (rewrite ?length_insert; lia).
  repeat case_decide; subst.
  all: try (apply Hvp in H1 as H1'; apply Hvp in H2 as H2').
  all: try (split; [intros [= <-]|intros [= <-]]; congruence).
  all: try (split; [intros [= <-]; congruence|intros Hq%Hvp; congruence]).
  all: try (split; [intros Hq%Hvp; congruence|intros [= <-]; congruence]).
  all: try apply Hvp.
  all: by split.
Qed.
End inverse.

(** ** Construction *)

Lemma New_loop_spec (k i : nat) sz :
  New_loop k (Z.of_nat i)
    (mkSet sz (seqZ 0 (Z.of_nat i) ++ replicate k 0)
              (seqZ 0 (Z.of_nat i) ++ replicate k 0))
  = Return tt (mkSet sz (seqZ 0 (Z.of_nat (i + k))) (seqZ 0 (Z.of_nat (i + k)))).
Proof.
  revert i. induction k as [|k IH]; intros i.
  - simpl. unfold ret. rewrite !app_nil_r. do 3 f_equal; lia.
  - assert (Hstore : update (seqZ 0 (Z.of_nat i) ++ replicate (S k) 0)
                       (Z.of_nat i) (Z.of_nat i)
                     = Some (seqZ 0 (Z.of_nat (S i)) ++ replicate k 0)).
    { rewrite update_in_range.
      2:{ rewrite length_app, length_seqZ, length_replicate. lia. }
      f_equal. rewrite seqZ_S, <- app_assoc. simpl.
      replace (Z.to_nat (Z.of_nat i))
        with (length (seqZ 0 (Z.of_nat i)) + 0)%nat by (rewrite length_seqZ; lia).
      by rewrite insert_app_r. }
    cbn [New_loop]. unfold bind at 1, store_values at 1.
    cbn [values positions size]. rewrite Hstore.
    unfold bind at 1, store_positions at 1.
    cbn [values positions size]. rewrite Hstore.
    replace (Z.of_nat i + 1) with (Z.of_nat (S i)) by lia.
    rewrite IH. do 3 f_equal; lia.
Qed.

Lemma New_spec n : 0 ≤ n → New n = Some (mkSet 0 (seqZ 0 n) (seqZ 0 n)).
Proof.
  intros Hn. unfold New. destruct (Z.ltb_spec n 0); [lia|].
  pose proof (New_loop_spec (Z.to_nat n) 0 0) as H0.
  rewrite Z.sub_0_r. change (seqZ 0 (Z.of_nat 0)) with (@nil Z) in H0.
  rewrite !app_nil_l in H0. change (Z.of_nat 0) with 0 in H0. rewrite H0.
  do 3 f_equal; lia.
Qed.

Lemma New_negative n : n < 0 → New n = None.
Proof. intros Hn. unfold New. by destruct (Z.ltb_spec n 0); [|lia]. Qed.

Lemma index_seqZ n i v : index (seqZ 0 n) i = Some v ↔ v = i ∧ 0 ≤ i < n.
Proof.
  rewrite index_Some, length_seqZ, lookup_seqZ. lia.
Qed.

Lemma inverse_identity n : 0 ≤ n → inverse n (seqZ 0 n) (seqZ 0 n).
Proof.
  intros Hn. split; rewrite ?length_seqZ; try lia.
  intros i v. rewrite !index_seqZ. lia.
Qed.

(** ** The methods, case by case *)

Lemma Set_eta ss : mkSet (size ss) (values ss) (positions ss) = ss.
Proof. by destruct ss. Qed.

Lemma swap_spec n ss p1 p2 v1 v2 :
  inverse n (values ss) (positions ss) →
  index (values ss) p1 = Some v1 →
  index (values ss) p2 = Some v2 →
  swap p1 p2 ss =
    Return tt (mkSet (size ss)
      (<[Z.to_nat p2 := v1]> (<[Z.to_nat p1 := v2]> (values ss)))
      (<[Z.to_nat v2 := p1]> (<[Z.to_nat v1 := p2]> (positions ss)))).
Proof.
  intros Hinv H1 H2. unfold swap. destruct (Z.eqb_spec p1 p2) as [->|Hne].
  - assert (v1 = v2) as -> by congruence.
    pose proof (proj1 (inverse_index _ _ _ Hinv _ _) H2) as Hp.
    rewrite !(index_insert_id _ _ _ H2), !(index_insert_id _ _ _ Hp).
    unfold ret. by rewrite Set_eta.
  - pose proof (index_range _ _ _ H1) as R1.
    pose proof (index_range _ _ _ H2) as R2.
    pose proof (index_range _ _ _ (proj1 (inverse_index _ _ _ Hinv _ _) H1)) as R3.
    pose proof (index_range _ _ _ (proj1 (inverse_index _ _ _ Hinv _ _) H2)) as R4.
    unfold bind, load_values, store_values, store_positions. rewrite H1, H2. simpl.
    rewrite update_in_range by done. simpl.
    rewrite update_in_range by (rewrite length_insert; done). simpl.
    rewrite update_in_range by done. simpl.
    rewrite update_in_range by (rewrite length_insert; done). done.
Qed.

Lemma swap_panic ss p1 p2 v1 :
  p1 ≠ p2 →
  index (values ss) p1 = Some v1 →
  index (values ss) p2 = None →
  swap p1 p2 ss = Panic ss.
Proof.
  intros Hne H1 H2. unfold swap. destruct (Z.eqb_spec p1 p2); [done|].
  unfold bind, load_values. by rewrite H1, H2.
Qed.

Lemma Insert_above ss elem :
  Z.of_nat (length (values ss)) ≤ elem →
  Insert elem ss = Return (Some (Errorf elem (Z.of_nat (length (values ss))))) ss.
Proof.
  intros He. unfold Insert, bind, N. simpl.
  by destruct (Z.geb_spec elem (Z.of_nat (length (values ss)))); [|lia].
Qed.

Lemma Remove_above ss elem :
  Z.of_nat (length (values ss)) ≤ elem →
  Remove elem ss = Return (Some (Errorf elem (Z.of_nat (length (values ss))))) ss.
Proof.
  intros He. unfold Remove, bind, N. simpl.
  by destruct (Z.geb_spec elem (Z.of_nat (length (values ss)))); [|lia].
Qed.

Lemma Insert_below ss elem : elem < 0 → Insert elem ss = Panic ss.
Proof.
  intros He. unfold Insert, bind, N. simpl.
  destruct (Z.geb_spec elem (Z.of_nat (length (values ss)))); [lia|].
  unfold load_positions.
  by rewrite (proj2 (index_None (positions ss) elem)) by lia.
Qed.

Lemma Remove_below ss elem : elem < 0 → Remove elem ss = Panic ss.
Proof.
  intros He. unfold Remove, bind, N. simpl.
  destruct (Z.geb_spec elem (Z.of_nat (length (values ss)))); [lia|].
  unfold load_positions.
  by rewrite (proj2 (index_None (positions ss) elem)) by lia.
Qed.

Section methods.
Context {n : Z} {ss : Set_} (Hinv : inverse n (values ss) (positions ss)).
Context {elem p : Z} (Hp : index (positions ss) elem = Some p).

Lemma position_in_range : 0 ≤ elem < n ∧ 0 ≤ p < n.
Proof using Hinv Hp.
  pose proof (index_range _ _ _ Hp).
  pose proof (index_range _ _ _ (proj2 (inverse_index _ _ _ Hinv _ _) Hp)).
  destruct Hinv. lia.
Qed.

Lemma Contains_spec : Contains elem ss = Return (p <? size ss) ss.
Proof using Hp. unfold Contains, bind, load_positions. by rewrite Hp. Qed.

Lemma Insert_present : p < size ss → Insert elem ss = Return None ss.
Proof using Hinv Hp.
  intros Hlt. destruct position_in_range as [He _].
  unfold Insert, bind, N, load_positions. simpl.
  rewrite (inverse_values_length _ _ _ Hinv).
  destruct (Z.geb_spec elem n); [lia|]. rewrite Hp. simpl.
  by destruct (Z.ltb_spec p (size ss)); [|lia].
Qed.

Lemma Insert_absent v2 :
  n ≤ max_int → size ss ≤ p → index (values ss) (size ss) = Some v2 →
  Insert elem ss =
    Return None (mkSet (size ss + 1)
      (<[Z.to_nat (size ss) := elem]> (<[Z.to_nat p := v2]> (values ss)))
      (<[Z.to_nat v2 := p]> (<[Z.to_nat elem := size ss]> (positions ss)))).
Proof using Hinv Hp.
  intros Hn Hge Hv2. destruct position_in_range as [He Hpr].
  pose proof (index_range _ _ _ Hv2) as Hs.
  unfold Insert, bind, N, load_positions. simpl.
  rewrite (inverse_values_length _ _ _ Hinv).
  destruct (Z.geb_spec elem n); [lia|]. rewrite Hp. simpl.
  destruct (Z.ltb_spec p (size ss)); [lia|].
  rewrite (swap_spec n ss p (size ss) elem v2); try done.
  2:{ by apply (inverse_index _ _ _ Hinv). }
  simpl. unfold ret. rewrite wrap_int; [done|].
  unfold is_int, min_int, max_int in *. lia.
Qed.

Lemma Insert_absent_negative :
  size ss ≤ p → size ss < 0 → Insert elem ss = Panic ss.
Proof using Hinv Hp.
  intros Hge Hneg. destruct position_in_range as [He Hpr].
  unfold Insert, bind, N, load_positions. simpl.
  rewrite (inverse_values_length _ _ _ Hinv).
  destruct (Z.geb_spec elem n); [lia|]. rewrite Hp. simpl.
  destruct (Z.ltb_spec p (size ss)); [lia|].
  rewrite (swap_panic ss p (size ss) elem); try done; [lia| |].
  - by apply (inverse_index _ _ _ Hinv).
  - apply index_None. lia.
Qed.

Lemma Remove_absent :
  n ≤ max_int → size ss ≤ p → min_int < size ss →
  Remove elem ss = Return None (mkSet (size ss - 1) (values ss) (positions ss)).
Proof using Hinv Hp.
  intros Hn Hge Hmin. destruct position_in_range as [He Hpr].
  unfold Remove, bind, N, load_positions. simpl.
  rewrite (inverse_values_length _ _ _ Hinv).
  destruct (Z.geb_spec elem n); [lia|]. rewrite Hp. simpl.
  rewrite wrap_int by (unfold is_int, min_int, max_int in *; lia).
  by destruct (Z.geb_spec p (size ss - 1)); [|lia].
Qed.

Lemma Remove_present v2 :
  n ≤ max_int → p < size ss → size ss ≤ n →
  index (values ss) (size ss - 1) = Some v2 →
  Remove elem ss =
    Return None (mkSet (size ss - 1)
      (<[Z.to_nat (size ss - 1) := elem]> (<[Z.to_nat p := v2]> (values ss)))
      (<[Z.to_nat v2 := p]> (<[Z.to_nat elem := size ss - 1]> (positions ss)))).
Proof using Hinv Hp.
  intros Hn Hlt Hsz Hv2. destruct position_in_range as [He Hpr].
  pose proof (proj2 (inverse_index _ _ _ Hinv _ _) Hp) as Hv1.
  unfold Remove, bind, N, load_positions. simpl.
  rewrite (inverse_values_length _ _ _ Hinv).
  destruct (Z.geb_spec elem n); [lia|]. rewrite Hp. simpl.
  rewrite wrap_int by (unfold is_int, min_int, max_int in *; lia).
  destruct (Z.geb_spec p (size ss - 1)).
  - assert (p = size ss - 1) as Heq by lia. rewrite <- Heq in *.
    assert (v2 = elem) as -> by congruence.
    by rewrite !(index_insert_id _ _ _ Hv1), !(index_insert_id _ _ _ Hp).
  - by rewrite (swap_spec n _ p (size ss - 1) elem v2).
Qed.

Lemma Remove_wraps :
  n ≤ max_int → size ss = min_int →
  Remove elem ss = Panic (mkSet max_int (values ss) (positions ss)).
Proof using Hinv Hp.
  intros Hn Hmin. destruct position_in_range as [He Hpr].
  pose proof (proj2 (inverse_index _ _ _ Hinv _ _) Hp) as Hv1.
  unfold Remove, bind, N, load_positions. simpl.
  rewrite (inverse_values_length _ _ _ Hinv).
  destruct (Z.geb_spec elem n); [lia|]. rewrite Hp. simpl.
  rewrite Hmin, wrap_below.
  destruct (Z.geb_spec p max_int); [lia|].
  rewrite (swap_panic _ p max_int elem); try done; [lia|].
  apply index_None. simpl. destruct Hinv. lia.
Qed.
End methods.

(** ** Preservation of [wf] *)

Lemma bind_Return {A B} (m : M A) (k : A → M B) ss b ss' :
  bind m k ss = Return b ss' ↔ ∃ a ss1, m ss = Return a ss1 ∧ k a ss1 = Return b ss'.
Proof.
  unfold bind. destruct (m ss) as [a ss1|ss1]; split.
  - eauto.
  - by intros (? & ? & [= <- <-] & ?).
  - done.
  - by intros (? & ? & ? & ?).
Qed.

Lemma wf_size_nonneg n ss : wf n ss → 0 ≤ n.
Proof. intros [[Hn _ _] _ _]. lia. Qed.

Lemma Insert_wf n ss elem r ss' :
  wf n ss → Insert elem ss = Return r ss' → wf n ss'.
Proof.
  intros Hwf Hrun. pose proof Hwf as [Hinv Hcap Hsz].
  destruct (Z.lt_ge_cases elem 0) as [Hneg|Hnn].
  { by rewrite Insert_below in Hrun. }
  destruct (Z.lt_ge_cases elem n) as [Hlt|Hge].
  2:{ rewrite Insert_above in Hrun by (destruct Hinv; lia). congruence. }
  destruct (inverse_position Hinv elem) as (p & Hp & Hpr); [lia|].
  destruct (Z.lt_ge_cases p (size ss)) as [Hin|Hout].
  { rewrite (Insert_present Hinv Hp Hin) in Hrun. congruence. }
  destruct (Z.lt_ge_cases (size ss) 0) as [Hs|Hs].
  { by rewrite (Insert_absent_negative Hinv Hp) in Hrun. }
  destruct (inverse_value Hinv (size ss)) as (v2 & Hv2 & _); [lia|].
  rewrite (Insert_absent Hinv Hp v2) in Hrun by done.
  injection Hrun as _ <-. split; simpl; [|done|lia].
  apply (inverse_exchange Hinv); [|done]. by apply (inverse_index _ _ _ Hinv).
Qed.

Lemma Remove_wf n ss elem r ss' :
  wf n ss → Remove elem ss = Return r ss' → wf n ss'.
Proof.
  intros Hwf Hrun. pose proof Hwf as [Hinv Hcap Hsz].
  destruct (Z.lt_ge_cases elem 0) as [Hneg|Hnn].
  { by rewrite Remove_below in Hrun. }
  destruct (Z.lt_ge_cases elem n) as [Hlt|Hge].
  2:{ rewrite Remove_above in Hrun by (destruct Hinv; lia). congruence. }
  destruct (inverse_position Hinv elem) as (p & Hp & Hpr); [lia|].
  destruct (Z.lt_ge_cases p (size ss)) as [Hin|Hout].
  - destruct (inverse_value Hinv (size ss - 1)) as (v2 & Hv2 & _); [lia|].
    rewrite (Remove_present Hinv Hp v2) in Hrun by (done || lia).
    injection Hrun as _ <-. split; simpl; [|done|unfold min_int in *; lia].
    apply (inverse_exchange Hinv); [|done]. by apply (inverse_index _ _ _ Hinv).
  - destruct (Z.eq_dec (size ss) min_int) as [Hmin|Hmin].
    { by rewrite (Remove_wraps Hinv Hp) in Hrun. }
    rewrite (Remove_absent Hinv Hp) in Hrun by (done || lia).
    injection Hrun as _ <-. split; simpl; [done|done|lia].
Qed.

Lemma Clear_wf n ss : wf n ss → wf n (mkSet 0 (values ss) (positions ss)).
Proof.
  intros Hwf. pose proof (wf_size_nonneg _ _ Hwf).
  destruct Hwf as [Hinv Hcap Hsz]. unfold min_int in *.
  split; simpl; try done; lia.
Qed.

Lemma exec_wf n c ss ss' : wf n ss → exec c ss = Return tt ss' → wf n ss'.
Proof.
  intros Hwf. destruct c as [elem|elem|]; simpl.
  - intros (r & ss1 & Hrun & [= <-])%bind_Return. eauto using Insert_wf.
  - intros (r & ss1 & Hrun & [= <-])%bind_Return. eauto using Remove_wf.
  - intros [= <-]. by apply Clear_wf.
Qed.

Lemma New_wf n ss : is_int n → New n = Some ss → wf n ss ∧ size ss = 0.
Proof.
  intros [Hlo Hhi] Hnew. destruct (Z.lt_ge_cases n 0) as [Hneg|Hnn].
  { by rewrite New_negative in Hnew. }
  rewrite New_spec in Hnew by done. injection Hnew as <-.
  split; [|done]. split; simpl; [by apply inverse_identity|done|].
  unfold min_int. lia.
Qed.

Lemma reachable_wf n ss : reachable n ss → wf n ss.
Proof.
  induction 1 as [ss Hn Hnew|c ss ss' _ IH Hrun].
  - by destruct (New_wf n ss).
  - by eapply exec_wf.
Qed.

Lemma wf_mutual_inverses n ss : wf n ss → mutual_inverses n ss.
Proof.
  intros [Hinv _ _] i Hi. split.
  - destruct (inverse_position Hinv i Hi) as (p & Hp & _).
    exists p. split; [done|]. by apply (inverse_index _ _ _ Hinv).
  - destruct (inverse_value Hinv i Hi) as (v & Hv & _).
    exists v. split; [done|]. by apply (inverse_index _ _ _ Hinv).
Qed.

(** ** The two views *)

Lemma slice_prefix l k :
  0 ≤ k ≤ Z.of_nat (length l) → slice l 0 k = Some (take (Z.to_nat k) l).
Proof.
  intros Hk. unfold slice.
  destruct (Z.leb_spec 0 k), (Z.leb_spec k (Z.of_nat (length l)));
    simpl; try lia.
  by rewrite Nat.sub_0_r.
Qed.

Lemma slice_suffix l k :
  0 ≤ k ≤ Z.of_nat (length l) →
  slice l k (Z.of_nat (length l)) = Some (drop (Z.to_nat k) l).
Proof.
  intros Hk. unfold slice.
  destruct (Z.leb_spec 0 k), (Z.leb_spec k (Z.of_nat (length l))),
    (Z.leb_spec (Z.of_nat (length l)) (Z.of_nat (length l)));
    simpl; try lia.
  rewrite take_ge; [done|]. rewrite length_drop. lia.
Qed.

Lemma slice_negative l lo hi : lo < 0 ∨ hi < 0 → slice l lo hi = None.
Proof.
  intros Hk. unfold slice.
  destruct (Z.leb_spec 0 lo), (Z.leb_spec lo hi); simpl; try done; lia.
Qed.

Lemma Content_spec ss :
  0 ≤ size ss ≤ Z.of_nat (length (values ss)) →
  Content ss = Return (take (Z.to_nat (size ss)) (values ss)) ss.
Proof. intros Hs. unfold Content. by rewrite slice_prefix. Qed.

Lemma Absent_spec ss :
  0 ≤ size ss ≤ Z.of_nat (length (values ss)) →
  Absent ss = Return (drop (Z.to_nat (size ss)) (values ss)) ss.
Proof. intros Hs. unfold Absent. by rewrite slice_suffix. Qed.

Lemma Content_negative ss : size ss < 0 → Content ss = Panic ss.
Proof. intros Hs. unfold Content. rewrite slice_negative; [done|lia]. Qed.

Lemma Absent_negative ss : size ss < 0 → Absent ss = Panic ss.
Proof. intros Hs. unfold Absent. rewrite slice_negative; [done|lia]. Qed.

Lemma inverse_NoDup n vs ps : inverse n vs ps → NoDup vs.
Proof.
  intros Hinv. apply NoDup_alt. intros i j x Hi Hj.
  apply Nat2Z.inj, (inverse_values_inj Hinv _ _ x); apply index_Some.
  - pose proof (lookup_lt_Some _ _ _ Hi). by rewrite Nat2Z.id; split; [lia|].
  - pose proof (lookup_lt_Some _ _ _ Hj). by rewrite Nat2Z.id; split; [lia|].
Qed.

Lemma once_NoDup e l : NoDup l → e ∈ l → once e l.
Proof.
  intros Hnd Hin. unfold once.
  apply NoDup_ListNoDup in Hnd.
  by apply (proj1 (NoDup_count_occ' Z.eq_dec l) Hnd), list_elem_of_In.
Qed.

Lemma once_prefix n vs ps p e k :
  inverse n vs ps → index vs p = Some e → p < k →
  once e (take (Z.to_nat k) vs).
Proof.
  intros Hinv [Hr Hl]%index_Some Hlt. apply once_NoDup.
  - pose proof (inverse_NoDup _ _ _ Hinv) as Hnd.
    rewrite <- (take_drop (Z.to_nat k) vs) in Hnd.
    by apply NoDup_app in Hnd as (? & _ & _).
  - apply elem_of_take. exists (Z.to_nat p). split; [done|lia].
Qed.

Lemma once_suffix n vs ps p e k :
  inverse n vs ps → index vs p = Some e → 0 ≤ k ≤ p →
  once e (drop (Z.to_nat k) vs).
Proof.
  intros Hinv [Hr Hl]%index_Some Hlt. apply once_NoDup.
  - pose proof (inverse_NoDup _ _ _ Hinv) as Hnd.
    rewrite <- (take_drop (Z.to_nat k) vs) in Hnd.
    by apply NoDup_app in Hnd as (_ & _ & ?).
  - apply list_elem_of_lookup. exists (Z.to_nat p - Z.to_nat k)%nat.
    rewrite lookup_drop. rewrite <- Hl. f_equal. lia.
Qed.

(** The values are a rearrangement of the domain [[0, n)]. *)
Lemma inverse_Permutation n vs ps : inverse n vs ps → vs ≡ₚ seqZ 0 n.
Proof.
  intros Hinv. apply NoDup_Permutation.
  - by eapply inverse_NoDup.
  - apply NoDup_seqZ.
  - intros x. rewrite elem_of_seqZ, list_elem_of_lookup. split.
    + intros [i Hi]. pose proof (lookup_lt_Some _ _ _ Hi).
      assert (index vs (Z.of_nat i) = Some x) as Hx.
      { apply index_Some. by rewrite Nat2Z.id; split; [lia|]. }
      apply (inverse_index _ _ _ Hinv), index_range in Hx.
      destruct Hinv. lia.
    + intros Hx. destruct (inverse_position Hinv x) as (p & Hp & _); [lia|].
      apply (inverse_index _ _ _ Hinv), index_Some in Hp as [_ Hp]. eauto.
Qed.

(** Under the invariants of the data model the two views split the domain:
    together they are a rearrangement of [0, ..., n-1]. *)
Lemma invariant_partition n ss :
  invariant n ss →
  ∃ c a, Content ss = Return c ss ∧ Absent ss = Return a ss ∧
    c ++ a = values ss ∧ c ++ a ≡ₚ seqZ 0 n.
Proof.
  intros [[Hinv _ Hsz] Hnn].
  pose proof (inverse_values_length _ _ _ Hinv) as Hlen.
  exists (take (Z.to_nat (size ss)) (values ss)),
         (drop (Z.to_nat (size ss)) (values ss)).
  rewrite Content_spec, Absent_spec, take_drop by lia.
  repeat split. by eapply inverse_Permutation.
Qed.

(** ** The package's examples and tests *)

(** [ExampleSet_Content] and [ExampleSet_Absent]: after [Insert(2)],
    [Insert(3)], [Insert(4)], [Remove(3)] on [New(5)], the content is
    [2, 4] and the absent elements are listed as [3, 1, 0]. *)
Example ExampleSet_Content :
  let ss0 := mkSet 0 [0; 1; 2; 3; 4] [0; 1; 2; 3; 4] in
  let ss := mkSet 2 [2; 4; 3; 1; 0] [4; 3; 0; 2; 1] in
  New 5 = Some ss0 ∧
  run [CInsert 2; CInsert 3; CInsert 4; CRemove 3] ss0 = Return tt ss ∧
  Content ss = Return [2; 4] ss ∧
  Absent ss = Return [3; 1; 0] ss.
Proof. repeat split; vm_compute; reflexivity. Qed.

(** [TestSet_Size]: sizes 2 and 3 after the inserts of the test. *)
Example TestSet_Size :
  let ss0 := mkSet 0 [0; 1; 2; 3; 4] [0; 1; 2; 3; 4] in
  let ss1 := mkSet 2 [0; 1; 2; 3; 4] [0; 1; 2; 3; 4] in
  let ss2 := mkSet 3 [0; 1; 2; 3; 4] [0; 1; 2; 3; 4] in
  New 5 = Some ss0 ∧
  run [CInsert 0; CInsert 1] ss0 = Return tt ss1 ∧
  Size ss1 = Return 2 ss1 ∧
  run [CInsert 1; CInsert 2] ss1 = Return tt ss2 ∧
  Size ss2 = Return 3 ss2.
Proof. repeat split; vm_compute; reflexivity. Qed.

(** [TestSet_Remove_error]: on [New(5)], [Remove(5)] returns an error and
    [Remove(3)] returns none. *)
Example TestSet_Remove_error :
  let ss0 := mkSet 0 [0; 1; 2; 3; 4] [0; 1; 2; 3; 4] in
  New 5 = Some ss0 ∧
  Remove 5 ss0 = Return (Some (Errorf 5 5)) ss0 ∧
  Remove 3 ss0 = Return None (mkSet (-1) [0; 1; 2; 3; 4] [0; 1; 2; 3; 4]).
Proof. repeat split; vm_compute; reflexivity. Qed.

(** * The claims *)

(** ** Removing an absent element *)

(** C1 (the code departs from it).  The claim: [Remove] of an in-range,
    absent element returns no error and changes nothing.  On the code,
    [size] is decremented before the test "elem is already out of the set",
    so the call returns [nil] with [size] one smaller.  On [New(5)],
    [Remove(3)] leaves [size = -1]; on [New(5)] after [Insert(2)],
    [Remove(3)] leaves [size = 0] and [2], which was a member, is one no
    more. *)
Theorem C1_Remove_absent_decrements_size :
  let ss0 := mkSet 0 [0; 1; 2; 3; 4] [0; 1; 2; 3; 4] in
  let ss1 := mkSet 1 [2; 1; 0; 3; 4] [2; 1; 0; 3; 4] in
  let ss2 := mkSet 0 [2; 1; 0; 3; 4] [2; 1; 0; 3; 4] in
  New 5 = Some ss0 ∧
  Contains 3 ss0 = Return false ss0 ∧
  Remove 3 ss0 = Return None (mkSet (-1) [0; 1; 2; 3; 4] [0; 1; 2; 3; 4]) ∧
  Insert 2 ss0 = Return None ss1 ∧
  Contains 3 ss1 = Return false ss1 ∧
  Contains 2 ss1 = Return true ss1 ∧
  Size ss1 = Return 1 ss1 ∧
  Remove 3 ss1 = Return None ss2 ∧
  Size ss2 = Return 0 ss2 ∧
  Contains 2 ss2 = Return false ss2.
Proof. repeat split; reflexivity. Qed.

(** ** Reachable states *)

(** C2 (the code departs from it).  The claim: every state reached from
    construction by in-range calls satisfies the structural invariants,
    [0 <= size <= N] among them, and [Content()] and [Absent()] partition
    the domain.  On the code, [New(5)] followed by the in-range call
    [Remove(3)] reaches a state with [size = -1]: the invariant fails there
    and both views panic.  (The mutual-inverse part and [size <= N] do hold
    in every reachable state: [reachable_wf].) *)
Theorem C2_reachable_negative_size :
  let ss := mkSet (-1) [0; 1; 2; 3; 4] [0; 1; 2; 3; 4] in
  New 5 = Some (mkSet 0 [0; 1; 2; 3; 4] [0; 1; 2; 3; 4]) ∧
  run [CRemove 3] (mkSet 0 [0; 1; 2; 3; 4] [0; 1; 2; 3; 4]) = Return tt ss ∧
  reachable 5 ss ∧
  ¬ invariant 5 ss ∧
  Content ss = Panic ss ∧
  Absent ss = Panic ss.
Proof.
  repeat split; try reflexivity.
  - apply (reachable_exec 5 (CRemove 3)
             (mkSet 0 [0; 1; 2; 3; 4] [0; 1; 2; 3; 4])); [|reflexivity].
    apply reachable_New; [|reflexivity].
    unfold is_int, min_int, max_int. lia.
  - intros [_ Hs]. simpl in Hs. lia.
Qed.

(** ** Elements outside the range *)

(** C3 (the code departs from it).  The claim: for every [elem] outside
    [[0, capacity)], negative ones included, [Insert] and [Remove] return an
    error value and mutate nothing.  The guard of both methods is
    [elem >= ss.N()] only: on [New(5)], [Insert(5)] and [Remove(5)] return
    the error, but [Insert(-1)] and [Remove(-1)] go on to read
    [ss.positions[-1]] and panic. *)
Theorem C3_negative_elem_panics :
  let ss := mkSet 0 [0; 1; 2; 3; 4] [0; 1; 2; 3; 4] in
  New 5 = Some ss ∧
  Insert 5 ss = Return (Some (Errorf 5 5)) ss ∧
  Remove 5 ss = Return (Some (Errorf 5 5)) ss ∧
  Insert (-1) ss = Panic ss ∧
  Remove (-1) ss = Panic ss.
Proof. repeat split; reflexivity. Qed.

(** ** Construction *)

(** C6.  [New(n)] with [n >= 0] returns a set with [size = 0] whose two
    slices have length [n] and hold [values[i] = i] and [positions[i] = i]
    for every [i] in [[0, n)], so that every element is absent; [New(n)] with
    [n < 0] panics and returns no object. *)
Theorem C6_New n :
  (0 ≤ n →
   ∃ ss, New n = Some ss ∧ size ss = 0 ∧
     Z.of_nat (length (values ss)) = n ∧
     Z.of_nat (length (positions ss)) = n ∧
     ∀ i, 0 ≤ i < n →
       index (values ss) i = Some i ∧ index (positions ss) i = Some i ∧
       Contains i ss = Return false ss) ∧
  (n < 0 → New n = None).
Proof.
  split; [|apply New_negative].
  intros Hn. eexists. split; [by apply New_spec|]. simpl.
  rewrite length_seqZ. repeat split; try lia.
  - apply index_seqZ. lia.
  - apply index_seqZ. lia.
  - assert (index (seqZ 0 n) i = Some i) as Hi by (apply index_seqZ; lia).
    rewrite (Contains_spec (ss := mkSet 0 _ _) Hi). simpl.
    by destruct (Z.ltb_spec i 0); [lia|].
Qed.

Lemma C6_New_witness :
  (∃ ss, New 3 = Some ss ∧ size ss = 0 ∧
     Z.of_nat (length (values ss)) = 3 ∧
     Z.of_nat (length (positions ss)) = 3 ∧
     ∀ i, 0 ≤ i < 3 →
       index (values ss) i = Some i ∧ index (positions ss) i = Some i ∧
       Contains i ss = Return false ss) ∧
  New (-1) = None.
Proof.
  split.
  - apply (proj1 (C6_New 3)). lia.
  - apply (proj2 (C6_New (-1))). lia.
Defined.

(** ** Membership test *)

(** C7.  On a set of capacity [n] (both slices of length [n]) and for
    [0 <= elem < n], [Contains(elem)] returns [true] exactly when
    [positions[elem] < size], and the struct after the call is the struct
    before it. *)
Theorem C7_Contains n ss elem :
  Z.of_nat (length (values ss)) = n →
  Z.of_nat (length (positions ss)) = n →
  0 ≤ elem < n →
  ∃ p b, index (positions ss) elem = Some p ∧
    Contains elem ss = Return b ss ∧
    (b = true ↔ p < size ss).
Proof.
  intros Hv Hp He.
  destruct (index_in_range (positions ss) elem) as [p Hq]; [lia|].
  exists p, (p <? size ss). split; [done|]. split.
  - by apply Contains_spec.
  - apply Z.ltb_lt.
Qed.

Lemma C7_Contains_witness :
  ∃ p b, index [2; 1; 0; 3; 4] 2 = Some p ∧
    Contains 2 (mkSet 1 [2; 1; 0; 3; 4] [2; 1; 0; 3; 4])
      = Return b (mkSet 1 [2; 1; 0; 3; 4] [2; 1; 0; 3; 4]) ∧
    (b = true ↔ p < 1).
Proof.
  apply (C7_Contains 5 (mkSet 1 [2; 1; 0; 3; 4] [2; 1; 0; 3; 4]) 2).
  - reflexivity.
  - reflexivity.
  - lia.
Defined.

(** C10.  [Contains] indexes [positions] without a check of its own: on a
    set of capacity [n], for [0 <= elem < n] the read is in bounds and the
    call returns a boolean; for every other [elem] the call panics, it
    returns neither [false] nor an error. *)
Theorem C10_Contains_bounds n ss elem :
  Z.of_nat (length (values ss)) = n →
  Z.of_nat (length (positions ss)) = n →
  (0 ≤ elem < n → ∃ b, Contains elem ss = Return b ss) ∧
  (¬ (0 ≤ elem < n) → Contains elem ss = Panic ss).
Proof.
  intros Hv Hp. split; intros He.
  - destruct (index_in_range (positions ss) elem) as [p Hq]; [lia|].
    exists (p <? size ss). by apply Contains_spec.
  - unfold Contains, bind, load_positions.
    rewrite (proj2 (index_None (positions ss) elem)); [done|lia].
Qed.

Lemma C10_Contains_bounds_witness :
  let ss := mkSet 1 [2; 1; 0; 3; 4] [2; 1; 0; 3; 4] in
  (∃ b, Contains 4 ss = Return b ss) ∧
  Contains 5 ss = Panic ss ∧
  Contains (-1) ss = Panic ss.
Proof.
  intros ss. split; [|split].
  - apply (proj1 (C10_Contains_bounds 5 ss 4 eq_refl eq_refl)). lia.
  - apply (proj2 (C10_Contains_bounds 5 ss 5 eq_refl eq_refl)). lia.
  - apply (proj2 (C10_Contains_bounds 5 ss (-1) eq_refl eq_refl)). lia.
Defined.

(** ** Clear *)

(** C8.  On every reachable state of a set of capacity [n], [Clear()] sets
    [size] to [0] and leaves [values] and [positions] as they were; after
    it, [Size()] is [0], [Content()] is empty and [Absent()] is a
    rearrangement of the whole domain [0, ..., n-1]. *)
Theorem C8_Clear n ss :
  reachable n ss →
  ∃ ss', Clear ss = Return tt ss' ∧
    size ss' = 0 ∧ values ss' = values ss ∧ positions ss' = positions ss ∧
    Size ss' = Return 0 ss' ∧
    Content ss' = Return [] ss' ∧
    ∃ a, Absent ss' = Return a ss' ∧ a ≡ₚ seqZ 0 n ∧ Z.of_nat (length a) = n.
Proof.
  intros Hwf%reachable_wf. pose proof (wf_size_nonneg _ _ Hwf) as Hn.
  destruct Hwf as [Hinv _ _].
  exists (mkSet 0 (values ss) (positions ss)). repeat split.
  - rewrite Content_spec by (simpl; lia). done.
  - exists (values ss). split; [|split].
    + rewrite Absent_spec by (simpl; lia). done.
    + by eapply inverse_Permutation.
    + by destruct Hinv.
Qed.

Lemma C8_Clear_witness :
  ∃ ss', Clear (mkSet 1 [2; 1; 0; 3; 4] [2; 1; 0; 3; 4]) = Return tt ss' ∧
    size ss' = 0 ∧ values ss' = [2; 1; 0; 3; 4] ∧
    positions ss' = [2; 1; 0; 3; 4] ∧
    Size ss' = Return 0 ss' ∧
    Content ss' = Return [] ss' ∧
    ∃ a, Absent ss' = Return a ss' ∧ a ≡ₚ seqZ 0 5 ∧ Z.of_nat (length a) = 5.
Proof.
  apply (C8_Clear 5 (mkSet 1 [2; 1; 0; 3; 4] [2; 1; 0; 3; 4])).
  apply (reachable_exec 5 (CInsert 2) (mkSet 0 [0; 1; 2; 3; 4] [0; 1; 2; 3; 4]));
    [|reflexivity].
  apply reachable_New; [|reflexivity].
  unfold is_int, min_int, max_int. lia.
Defined.

(** ** Insert *)

Lemma inserted_position n ss elem p v2 :
  inverse n (values ss) (positions ss) →
  index (positions ss) elem = Some p →
  index (values ss) (size ss) = Some v2 →
  index (positions (inserted ss elem p v2)) elem = Some (size ss).
Proof.
  intros Hinv Hp Hv2. pose proof (position_in_range Hinv Hp) as [He Hpr].
  pose proof (proj1 (inverse_index _ _ _ Hinv _ _) Hv2) as Hq.
  pose proof (index_range _ _ _ Hq) as Hr.
  pose proof (inverse_positions_length _ _ _ Hinv) as Hlen.
  simpl. rewrite !index_insert by (rewrite ?length_insert; lia).
  repeat case_decide; try done. subst. congruence.
Qed.

(** C5.  On a state that satisfies the invariants of the data model and for
    [0 <= elem < n], with [p = positions[elem]] (where [values[p] = elem]):
    if [p < size], [Insert(elem)] returns [nil] and leaves the struct as it
    was, [size] included, and [Contains(elem)] is still [true]; if
    [p >= size], [Insert(elem)] returns [nil] after exchanging the entries
    at [p] and [size] of [values] (and the entries of [positions] for the two
    values exchanged) and adding one to [size], and [Contains(elem)] is
    [true] afterwards. *)
Theorem C5_Insert n ss elem :
  invariant n ss → 0 ≤ elem < n →
  ∃ p, index (positions ss) elem = Some p ∧ index (values ss) p = Some elem ∧
    (p < size ss →
       Insert elem ss = Return None ss ∧
       Contains elem ss = Return true ss) ∧
    (size ss ≤ p →
       ∃ v2, index (values ss) (size ss) = Some v2 ∧
         Insert elem ss = Return None (inserted ss elem p v2) ∧
         size (inserted ss elem p v2) = size ss + 1 ∧
         index (values (inserted ss elem p v2)) (size ss) = Some elem ∧
         index (values (inserted ss elem p v2)) p
           = Some (if decide (p = size ss) then elem else v2) ∧
         Contains elem (inserted ss elem p v2)
           = Return true (inserted ss elem p v2)).
Proof.
  intros [[Hinv Hcap Hsz] Hnn] He.
  destruct (inverse_position Hinv elem He) as (p & Hp & Hpr).
  pose proof (proj2 (inverse_index _ _ _ Hinv _ _) Hp) as Hv.
  exists p. split; [done|]. split; [done|]. split.
  - intros Hlt. split; [by apply (Insert_present Hinv Hp)|].
    rewrite (Contains_spec Hp). by destruct (Z.ltb_spec p (size ss)); [|lia].
  - intros Hge.
    destruct (inverse_value Hinv (size ss)) as (v2 & Hv2 & _); [lia|].
    pose proof (inverse_values_length _ _ _ Hinv) as Hlen.
    exists v2. split; [done|]. split; [by apply (Insert_absent Hinv Hp)|].
    split; [done|]. split; [|split].
    + simpl. rewrite index_insert by (rewrite ?length_insert; lia).
      by case_decide.
    + simpl. rewrite !index_insert by (rewrite ?length_insert; lia).
      repeat case_decide; try done; congruence.
    + rewrite (Contains_spec (inserted_position _ _ _ _ _ Hinv Hp Hv2)).
      simpl. by destruct (Z.ltb_spec (size ss) (size ss + 1)); [|lia].
Qed.

Lemma C5_Insert_witness :
  let ss := mkSet 1 [2; 1; 0; 3; 4] [2; 1; 0; 3; 4] in
  ∃ p, index (positions ss) 4 = Some p ∧ index (values ss) p = Some 4 ∧
    (p < size ss →
       Insert 4 ss = Return None ss ∧
       Contains 4 ss = Return true ss) ∧
    (size ss ≤ p →
       ∃ v2, index (values ss) (size ss) = Some v2 ∧
         Insert 4 ss = Return None (inserted ss 4 p v2) ∧
         size (inserted ss 4 p v2) = size ss + 1 ∧
         index (values (inserted ss 4 p v2)) (size ss) = Some 4 ∧
         index (values (inserted ss 4 p v2)) p
           = Some (if decide (p = size ss) then 4 else v2) ∧
         Contains 4 (inserted ss 4 p v2)
           = Return true (inserted ss 4 p v2)).
Proof.
  intros ss. apply (C5_Insert 5 ss 4); [|lia].
  split; [|simpl; lia].
  apply reachable_wf.
  apply (reachable_exec 5 (CInsert 2) (mkSet 0 [0; 1; 2; 3; 4] [0; 1; 2; 3; 4]));
    [|reflexivity].
  apply reachable_New; [|reflexivity].
  unfold is_int, min_int, max_int. lia.
Defined.

(** ** Round trip *)

Lemma Insert_member n ss e r ss1 :
  wf n ss → 0 ≤ e < n → Insert e ss = Return r ss1 →
  r = None ∧ ∃ p, index (positions ss1) e = Some p ∧ p < size ss1.
Proof.
  intros [Hinv Hcap Hsz] He Hrun.
  destruct (inverse_position Hinv e He) as (p & Hp & Hpr).
  destruct (Z.lt_ge_cases p (size ss)) as [Hin|Hout].
  { rewrite (Insert_present Hinv Hp Hin) in Hrun.
    injection Hrun as <- <-. eauto. }
  destruct (Z.lt_ge_cases (size ss) 0) as [Hs|Hs].
  { by rewrite (Insert_absent_negative Hinv Hp) in Hrun. }
  destruct (inverse_value Hinv (size ss)) as (v2 & Hv2 & _); [lia|].
  rewrite (Insert_absent Hinv Hp v2) in Hrun by done.
  injection Hrun as <- <-. split; [done|]. exists (size ss). split.
  - apply (inserted_position _ _ _ _ _ Hinv Hp Hv2).
  - simpl. lia.
Qed.

Lemma member_views n ss e p :
  wf n ss → index (positions ss) e = Some p → p < size ss →
  Contains e ss = Return true ss ∧
  ∃ c, Content ss = Return c ss ∧ once e c.
Proof.
  intros [Hinv Hcap Hsz] Hp Hlt.
  pose proof (position_in_range Hinv Hp) as [He Hpr].
  pose proof (inverse_values_length _ _ _ Hinv) as Hlen. split.
  - rewrite (Contains_spec Hp). by destruct (Z.ltb_spec p (size ss)); [|lia].
  - eexists. split; [apply Content_spec; lia|].
    apply (once_prefix n _ (positions ss) p); [done| |done].
    by apply (inverse_index _ _ _ Hinv).
Qed.

Lemma absent_views n ss e p :
  wf n ss → 0 ≤ size ss → index (positions ss) e = Some p → size ss ≤ p →
  Contains e ss = Return false ss ∧
  ∃ a, Absent ss = Return a ss ∧ once e a.
Proof.
  intros [Hinv Hcap Hsz] Hnn Hp Hge.
  pose proof (position_in_range Hinv Hp) as [He Hpr].
  pose proof (inverse_values_length _ _ _ Hinv) as Hlen. split.
  - rewrite (Contains_spec Hp). by destruct (Z.ltb_spec p (size ss)); [lia|].
  - eexists. split; [apply Absent_spec; lia|].
    apply (once_suffix n _ (positions ss) p); [done| |done].
    by apply (inverse_index _ _ _ Hinv).
Qed.

Lemma Remove_member n ss e p :
  wf n ss → index (positions ss) e = Some p → p < size ss →
  ∃ ss2, Remove e ss = Return None ss2 ∧ wf n ss2 ∧
    size ss2 = size ss - 1 ∧ index (positions ss2) e = Some (size ss2).
Proof.
  intros Hwf Hp Hlt. pose proof Hwf as [Hinv Hcap Hsz].
  pose proof (position_in_range Hinv Hp) as [He Hpr].
  destruct (inverse_value Hinv (size ss - 1)) as (v2 & Hv2 & _); [lia|].
  pose proof (Remove_present Hinv Hp v2 Hcap Hlt (proj2 Hsz) Hv2) as Hrun.
  eexists. split; [exact Hrun|]. split; [by eapply Remove_wf|].
  split; [done|]. simpl.
  pose proof (proj1 (inverse_index _ _ _ Hinv _ _) Hv2) as Hq.
  pose proof (index_range _ _ _ Hq) as Hr.
  pose proof (inverse_positions_length _ _ _ Hinv) as Hlen.
  rewrite !index_insert by (rewrite ?length_insert; lia).
  repeat case_decide; try done. subst. congruence.
Qed.

(** C4.  On every reachable state of a set of capacity [n] and for every [e]
    in [[0, n)]: once [Insert(e)] has returned, it has returned [nil],
    [Contains(e)] is [true] and [e] occurs exactly once in [Content()]; the
    [Remove(e)] that follows returns [nil], after which [Contains(e)] is
    [false] and [e] occurs exactly once in [Absent()]. *)
Theorem C4_round_trip n ss e r ss1 :
  reachable n ss → 0 ≤ e < n → Insert e ss = Return r ss1 →
  r = None ∧
  Contains e ss1 = Return true ss1 ∧
  (∃ c, Content ss1 = Return c ss1 ∧ once e c) ∧
  ∃ ss2, Remove e ss1 = Return None ss2 ∧
    Contains e ss2 = Return false ss2 ∧
    ∃ a, Absent ss2 = Return a ss2 ∧ once e a.
Proof.
  intros Hwf%reachable_wf He Hrun.
  pose proof (Insert_wf _ _ _ _ _ Hwf Hrun) as Hwf1.
  destruct (Insert_member _ _ _ _ _ Hwf He Hrun) as (-> & p & Hp & Hlt).
  destruct (member_views _ _ _ _ Hwf1 Hp Hlt) as [Hc Hv].
  destruct (Remove_member _ _ _ _ Hwf1 Hp Hlt) as (ss2 & Hrem & Hwf2 & Hs2 & Hp2).
  pose proof (position_in_range (wf_inverse _ _ Hwf1) Hp) as [_ Hpr].
  destruct (absent_views _ _ _ _ Hwf2 ltac:(lia) Hp2 ltac:(lia)) as [Hc2 Hv2].
  repeat split; try done. by exists ss2.
Qed.

Lemma C4_round_trip_witness :
  let ss := mkSet 1 [2; 1; 0; 3; 4] [2; 1; 0; 3; 4] in
  let ss1 := mkSet 2 [2; 4; 0; 3; 1] [2; 4; 0; 3; 1] in
  (None : option error) = None ∧
  Contains 4 ss1 = Return true ss1 ∧
  (∃ c, Content ss1 = Return c ss1 ∧ once 4 c) ∧
  ∃ ss2, Remove 4 ss1 = Return None ss2 ∧
    Contains 4 ss2 = Return false ss2 ∧
    ∃ a, Absent ss2 = Return a ss2 ∧ once 4 a.
Proof.
  intros ss ss1. apply (C4_round_trip 5 ss 4 None ss1); [|lia|reflexivity].
  apply (reachable_exec 5 (CInsert 2) (mkSet 0 [0; 1; 2; 3; 4] [0; 1; 2; 3; 4]));
    [|reflexivity].
  apply reachable_New; [|reflexivity].
  unfold is_int, min_int, max_int. lia.
Defined.

(** ** Insertion order *)

Lemma Insert_absent_places n ss elem p r ss' :
  wf n ss → index (positions ss) elem = Some p → size ss ≤ p →
  Insert elem ss = Return r ss' →
  0 ≤ size ss ∧
  ∃ v2, index (values ss) (size ss) = Some v2 ∧ r = None ∧
    ss' = inserted ss elem p v2.
Proof.
  intros [Hinv Hcap Hsz] Hp Hge Hrun.
  pose proof (position_in_range Hinv Hp) as [He Hpr].
  destruct (Z.lt_ge_cases (size ss) 0) as [Hs|Hs].
  { by rewrite (Insert_absent_negative Hinv Hp) in Hrun. }
  destruct (inverse_value Hinv (size ss)) as (v2 & Hv2 & _); [lia|].
  rewrite (Insert_absent Hinv Hp v2) in Hrun by done.
  injection Hrun as <- <-. eauto.
Qed.

Lemma inserted_prefix n ss elem p v2 :
  inverse n (values ss) (positions ss) →
  0 ≤ size ss ≤ p → p < n →
  take (Z.to_nat (size ss + 1)) (values (inserted ss elem p v2))
  = take (Z.to_nat (size ss)) (values ss) ++ [elem].
Proof.
  intros Hinv Hs Hp. pose proof (inverse_values_length _ _ _ Hinv) as Hlen.
  replace (Z.to_nat (size ss + 1)) with (S (Z.to_nat (size ss))) by lia.
  simpl values. erewrite take_S_r.
  2:{ apply list_lookup_insert_eq. rewrite length_insert. lia. }
  rewrite !take_insert_ge by lia. done.
Qed.

(** Elements that were absent, other than the one inserted, stay absent. *)
Lemma inserted_other_absent n ss elem p v2 e q :
  inverse n (values ss) (positions ss) →
  index (positions ss) elem = Some p → size ss ≤ p →
  index (values ss) (size ss) = Some v2 →
  e ≠ elem → index (positions ss) e = Some q → size ss ≤ q →
  ∃ q', index (positions (inserted ss elem p v2)) e = Some q' ∧ size ss + 1 ≤ q'.
Proof.
  intros Hinv Hp Hpge Hv2 Hne Hq Hge.
  pose proof (position_in_range Hinv Hp) as [He Hpr].
  pose proof (proj1 (inverse_index _ _ _ Hinv _ _) Hv2) as Hs.
  pose proof (proj2 (inverse_index _ _ _ Hinv _ _) Hp) as Hv.
  pose proof (index_range _ _ _ Hs) as Hr.
  pose proof (inverse_positions_length _ _ _ Hinv) as Hlen.
  simpl. rewrite !index_insert by (rewrite ?length_insert; lia).
  repeat case_decide; try done.
  - subst e. exists p. split; [done|].
    assert (p ≠ size ss); [|lia].
    intros Heq. apply Hne. rewrite Heq in Hv. congruence.
  - exists q. split; [done|].
    assert (q ≠ size ss); [|lia].
    intros ->. apply (inverse_index _ _ _ Hinv) in Hq. congruence.
Qed.

Lemma inserts_Content n l :
  ∀ ss, wf n ss → 0 ≤ size ss → NoDup l →
    Forall (λ e, ∃ p, index (positions ss) e = Some p ∧ size ss ≤ p) l →
    ∃ ss', inserts l ss ss' ∧
      Content ss' = Return (take (Z.to_nat (size ss)) (values ss) ++ l) ss'.
Proof.
  induction l as [|e l IH]; intros ss Hwf Hnn Hnd Hall.
  - exists ss. split; [done|]. rewrite app_nil_r. apply Content_spec.
    destruct Hwf as [[Hlen _ _] _ Hsz]. lia.
  - apply NoDup_cons in Hnd as [Hnotin Hnd].
    apply Forall_cons in Hall as [(p & Hp & Hge) Hall].
    pose proof Hwf as [Hinv Hcap Hsz].
    pose proof (position_in_range Hinv Hp) as [He Hpr].
    destruct (inverse_value Hinv (size ss)) as (v2 & Hv2 & _); [lia|].
    pose proof (Insert_absent Hinv Hp v2 Hcap Hge Hv2) as Hrun.
    fold (inserted ss e p v2) in Hrun.
    destruct (IH (inserted ss e p v2)) as (ss' & Hins & Hc).
    + by eapply Insert_wf.
    + simpl. lia.
    + done.
    + apply Forall_forall. intros x Hx.
      pose proof (proj1 (Forall_forall _ _) Hall x Hx) as (q & Hq & Hqge).
      apply (inserted_other_absent n ss e p v2 x q); try done.
      intros ->. done.
    + exists ss'. split; [by exists (inserted ss e p v2)|].
      rewrite Hc. f_equal.
      change (size (inserted ss e p v2)) with (size ss + 1).
      rewrite (inserted_prefix n) by (done || lia).
      by rewrite <- app_assoc.
Qed.

(** C9.  On a reachable state, an [Insert(elem)] that returns for an absent
    [elem] returns [nil], adds one to [size] and leaves [elem] at index
    [oldSize] of [values].  Hence, on a fresh [New(n)], the calls
    [Insert(e)] for the elements of a list [l] of distinct in-range
    elements, made in the order of [l], all return [nil] and [Content()] is
    then [l] itself. *)
Theorem C9_insertion_order n :
  (∀ ss elem p r ss',
     reachable n ss → index (positions ss) elem = Some p → size ss ≤ p →
     Insert elem ss = Return r ss' →
     r = None ∧ size ss' = size ss + 1 ∧
     index (values ss') (size ss) = Some elem) ∧
  (∀ l, 0 ≤ n ≤ max_int → NoDup l → Forall (λ e, 0 ≤ e < n) l →
     ∃ ss0 ss', New n = Some ss0 ∧ inserts l ss0 ss' ∧
       Content ss' = Return l ss').
Proof.
  split.
  - intros ss elem p r ss' Hwf%reachable_wf Hp Hge Hrun.
    destruct (Insert_absent_places _ _ _ _ _ _ Hwf Hp Hge Hrun)
      as (Hnn & v2 & Hv2 & -> & ->).
    destruct Hwf as [Hinv _ _].
    pose proof (index_range _ _ _ Hv2) as Hr.
    repeat split; try done. simpl.
    rewrite index_insert by (rewrite ?length_insert; lia). by case_decide.
  - intros l Hn Hnd Hall.
    assert (is_int n) as Hint by (unfold is_int, min_int; lia).
    pose proof (New_spec n (proj1 Hn)) as Hnew.
    destruct (New_wf n _ Hint Hnew) as [Hwf Hs].
    destruct (inserts_Content n l _ Hwf) as (ss' & Hins & Hc); try done.
    { apply Forall_forall. intros e He.
      pose proof (proj1 (Forall_forall _ _) Hall e He) as Hr. simpl in Hr.
      exists e. split; [|simpl; lia]. apply index_seqZ. lia. }
    eauto.
Qed.

Lemma C9_insertion_order_witness :
  (let ss := mkSet 1 [2; 1; 0; 3; 4] [2; 1; 0; 3; 4] in
   let ss' := mkSet 2 [2; 4; 0; 3; 1] [2; 4; 0; 3; 1] in
   (None : option error) = None ∧ size ss' = size ss + 1 ∧
   index (values ss') (size ss) = Some 4) ∧
  ∃ ss0 ss', New 5 = Some ss0 ∧ inserts [3; 0; 2] ss0 ss' ∧
    Content ss' = Return [3; 0; 2] ss'.
Proof.
  split.
  - intros ss ss'.
    apply (proj1 (C9_insertion_order 5) ss 4 4 None ss');
      [|reflexivity|simpl; lia|reflexivity].
    apply (reachable_exec 5 (CInsert 2)
             (mkSet 0 [0; 1; 2; 3; 4] [0; 1; 2; 3; 4])); [|reflexivity].
    apply reachable_New; [|reflexivity].
    unfold is_int, min_int, max_int. lia.
  - apply (proj2 (C9_insertion_order 5) [3; 0; 2]).
    + unfold max_int. lia.
    + apply NoDup_ListNoDup. repeat constructor; simpl; lia.
    + repeat constructor; lia.
Defined.

(** * Further properties of the package *)

(** ** Membership *)

Lemma member_spec ss e p :
  index (positions ss) e = Some p → member ss e = (p <? size ss).
Proof. intros Hp. unfold member. by rewrite (Contains_spec Hp). Qed.

Lemma member_outside ss e : index (positions ss) e = None → member ss e = false.
Proof.
  intros Hp. unfold member, Contains, bind, load_positions. by rewrite Hp.
Qed.

Lemma Contains_member ss e p :
  index (positions ss) e = Some p → Contains e ss = Return (member ss e) ss.
Proof. intros Hp. by rewrite (member_spec _ _ _ Hp), (Contains_spec Hp). Qed.

Lemma Contains_Return ss e b ss' :
  Contains e ss = Return b ss' →
  ss' = ss ∧ ∃ p, index (positions ss) e = Some p ∧ b = (p <? size ss).
Proof.
  unfold Contains, bind, load_positions.
  destruct (index (positions ss) e) as [p|]; [|done].
  intros [= <- <-]. eauto.
Qed.

Lemma inverse_sym n vs ps : inverse n vs ps → inverse n ps vs.
Proof. intros [Hv Hp Hvp]. by split. Qed.

Lemma prefix_member n vs ps e p k :
  inverse n vs ps → index ps e = Some p → 0 ≤ k →
  e ∈ take (Z.to_nat k) vs ↔ p < k.
Proof.
  intros Hinv Hp Hk. rewrite elem_of_take. split.
  - intros (i & Hi & Hlt). pose proof (lookup_lt_Some _ _ _ Hi).
    assert (index vs (Z.of_nat i) = Some e) as Hx.
    { apply index_Some. by rewrite Nat2Z.id; split; [lia|]. }
    apply (inverse_index _ _ _ Hinv) in Hx.
    assert (p = Z.of_nat i) by congruence. lia.
  - intros Hlt. apply (inverse_index _ _ _ Hinv), index_Some in Hp as [Hr Hp].
    exists (Z.to_nat p). split; [done|lia].
Qed.

Lemma suffix_member n vs ps e p k :
  inverse n vs ps → index ps e = Some p → 0 ≤ k →
  e ∈ drop (Z.to_nat k) vs ↔ k ≤ p.
Proof.
  intros Hinv Hp Hk. rewrite list_elem_of_lookup. split.
  - intros (i & Hi). rewrite lookup_drop in Hi.
    pose proof (lookup_lt_Some _ _ _ Hi).
    assert (index vs (Z.of_nat (Z.to_nat k + i)) = Some e) as Hx.
    { apply index_Some. by rewrite Nat2Z.id; split; [lia|]. }
    apply (inverse_index _ _ _ Hinv) in Hx.
    assert (p = Z.of_nat (Z.to_nat k + i)) by congruence. lia.
  - intros Hlt. apply (inverse_index _ _ _ Hinv), index_Some in Hp as [Hr Hp].
    exists (Z.to_nat p - Z.to_nat k)%nat. rewrite lookup_drop, <- Hp.
    f_equal. lia.
Qed.

Lemma filter_all {A} (P : A → Prop) `{∀ x, Decision (P x)} (l : list A) :
  Forall P l → filter P l = l.
Proof.
  induction 1 as [|x l Hx _ IH]; [done|].
  by rewrite filter_cons_True, IH.
Qed.

Lemma filter_none {A} (P : A → Prop) `{∀ x, Decision (P x)} (l : list A) :
  Forall (λ x, ¬ P x) l → filter P l = [].
Proof.
  induction 1 as [|x l Hx _ IH]; [done|].
  by rewrite filter_cons_False.
Qed.

(** ** What every reachable state satisfies *)

(** X1.  In every state reached from [New(n)] by calls that return, the
    capacity [N()] is still [n], both slices have length [n] and are
    rearrangements of [0, ..., n-1], they are inverse to each other, and
    [size <= n]. *)
Theorem X1_reachable_invariants n ss :
  reachable n ss →
  0 ≤ n ≤ max_int ∧
  N ss = Return n ss ∧
  Z.of_nat (length (positions ss)) = n ∧
  mutual_inverses n ss ∧
  values ss ≡ₚ seqZ 0 n ∧
  positions ss ≡ₚ seqZ 0 n ∧
  min_int ≤ size ss ≤ n.
Proof.
  intros Hwf%reachable_wf. pose proof (wf_size_nonneg _ _ Hwf) as Hn.
  pose proof (wf_mutual_inverses _ _ Hwf) as Hmi.
  destruct Hwf as [Hinv Hcap Hsz].
  repeat split; try done; try lia.
  - unfold N. by rewrite (inverse_values_length _ _ _ Hinv).
  - by destruct Hinv.
  - apply (Hmi i); lia.
  - apply (Hmi i); lia.
  - by eapply inverse_Permutation.
  - eapply inverse_Permutation. by apply inverse_sym.
Qed.

Lemma X1_reachable_invariants_witness :
  let ss := mkSet 2 [2; 4; 3; 1; 0] [4; 3; 0; 2; 1] in
  0 ≤ 5 ≤ max_int ∧
  N ss = Return 5 ss ∧
  Z.of_nat (length (positions ss)) = 5 ∧
  mutual_inverses 5 ss ∧
  values ss ≡ₚ seqZ 0 5 ∧
  positions ss ≡ₚ seqZ 0 5 ∧
  min_int ≤ size ss ≤ 5.
Proof.
  intros ss. apply (X1_reachable_invariants 5 ss).
  apply (reachable_exec 5 (CRemove 3) (mkSet 3 [2; 3; 4; 1; 0] [4; 3; 0; 1; 2]));
    [|vm_compute; reflexivity].
  apply (reachable_exec 5 (CInsert 4) (mkSet 2 [2; 3; 0; 1; 4] [2; 3; 0; 1; 4]));
    [|vm_compute; reflexivity].
  apply (reachable_exec 5 (CInsert 3) (mkSet 1 [2; 1; 0; 3; 4] [2; 1; 0; 3; 4]));
    [|vm_compute; reflexivity].
  apply (reachable_exec 5 (CInsert 2) (mkSet 0 [0; 1; 2; 3; 4] [0; 1; 2; 3; 4]));
    [|vm_compute; reflexivity].
  apply reachable_New; [|vm_compute; reflexivity].
  unfold is_int, min_int, max_int. lia.
Defined.

(** Three states of a capacity-5 set used to instantiate the theorems. *)
Lemma reachable_fresh :
  reachable 5 (mkSet 0 [0; 1; 2; 3; 4] [0; 1; 2; 3; 4]).
Proof.
  apply reachable_New; [|vm_compute; reflexivity].
  unfold is_int, min_int, max_int. lia.
Qed.

Lemma reachable_after_example :
  reachable 5 (mkSet 2 [2; 4; 3; 1; 0] [4; 3; 0; 2; 1]).
Proof.
  apply (reachable_exec 5 (CRemove 3) (mkSet 3 [2; 3; 4; 1; 0] [4; 3; 0; 1; 2]));
    [|vm_compute; reflexivity].
  apply (reachable_exec 5 (CInsert 4) (mkSet 2 [2; 3; 0; 1; 4] [2; 3; 0; 1; 4]));
    [|vm_compute; reflexivity].
  apply (reachable_exec 5 (CInsert 3) (mkSet 1 [2; 1; 0; 3; 4] [2; 1; 0; 3; 4]));
    [|vm_compute; reflexivity].
  apply (reachable_exec 5 (CInsert 2) (mkSet 0 [0; 1; 2; 3; 4] [0; 1; 2; 3; 4]));
    [|vm_compute; reflexivity].
  apply reachable_fresh.
Qed.

Lemma reachable_negative :
  reachable 5 (mkSet (-1) [0; 1; 2; 3; 4] [0; 1; 2; 3; 4]).
Proof.
  apply (reachable_exec 5 (CRemove 3) (mkSet 0 [0; 1; 2; 3; 4] [0; 1; 2; 3; 4]));
    [|vm_compute; reflexivity].
  apply reachable_fresh.
Qed.

(** ** The views *)

(** X2.  In a reachable state with [size >= 0], [Content()] and [Absent()]
    return slices of lengths [size] and [n - size] whose concatenation is
    [values], a rearrangement of [0, ..., n-1], and no element is in both.
    In a reachable state with [size < 0] both calls panic. *)
Theorem X2_views n ss :
  reachable n ss →
  (0 ≤ size ss →
   ∃ c a, Content ss = Return c ss ∧ Absent ss = Return a ss ∧
     Z.of_nat (length c) = size ss ∧ Z.of_nat (length a) = n - size ss ∧
     c ++ a = values ss ∧ c ++ a ≡ₚ seqZ 0 n ∧
     ∀ e, e ∈ c → e ∉ a) ∧
  (size ss < 0 → Content ss = Panic ss ∧ Absent ss = Panic ss).
Proof.
  intros [Hinv _ Hsz]%reachable_wf.
  pose proof (inverse_values_length _ _ _ Hinv) as Hlen.
  split.
  - intros Hnn.
    exists (take (Z.to_nat (size ss)) (values ss)),
           (drop (Z.to_nat (size ss)) (values ss)).
    rewrite Content_spec, Absent_spec, take_drop by lia.
    rewrite length_take, length_drop.
    repeat split; try lia.
    + by eapply inverse_Permutation.
    + pose proof (inverse_NoDup _ _ _ Hinv) as Hnd.
      rewrite <- (take_drop (Z.to_nat (size ss)) (values ss)) in Hnd.
      apply NoDup_app in Hnd as (_ & Hd & _). apply Hd.
  - intros Hneg. split; [by apply Content_negative|by apply Absent_negative].
Qed.

Lemma X2_views_witness :
  (let ss := mkSet 2 [2; 4; 3; 1; 0] [4; 3; 0; 2; 1] in
   ∃ c a, Content ss = Return c ss ∧ Absent ss = Return a ss ∧
     Z.of_nat (length c) = size ss ∧ Z.of_nat (length a) = 5 - size ss ∧
     c ++ a = values ss ∧ c ++ a ≡ₚ seqZ 0 5 ∧
     ∀ e, e ∈ c → e ∉ a) ∧
  (let ss := mkSet (-1) [0; 1; 2; 3; 4] [0; 1; 2; 3; 4] in
   Content ss = Panic ss ∧ Absent ss = Panic ss).
Proof.
  split.
  - intros ss. apply (proj1 (X2_views 5 ss reachable_after_example)).
    simpl. lia.
  - intros ss. apply (proj2 (X2_views 5 ss reachable_negative)).
    simpl. lia.
Defined.

(** X3.  In a reachable state with [size >= 0] and for [e] in [[0, n)]:
    [e] is listed by [Content()] exactly when [Contains(e)] returns [true],
    and by [Absent()] exactly when [Contains(e)] returns [false]. *)
Theorem X3_views_membership n ss e :
  reachable n ss → 0 ≤ size ss → 0 ≤ e < n →
  ∃ c a, Content ss = Return c ss ∧ Absent ss = Return a ss ∧
    (e ∈ c ↔ Contains e ss = Return true ss) ∧
    (e ∈ a ↔ Contains e ss = Return false ss).
Proof.
  intros [Hinv _ Hsz]%reachable_wf Hnn He.
  pose proof (inverse_values_length _ _ _ Hinv) as Hlen.
  destruct (inverse_position Hinv e He) as (p & Hp & Hpr).
  exists (take (Z.to_nat (size ss)) (values ss)),
         (drop (Z.to_nat (size ss)) (values ss)).
  rewrite Content_spec, Absent_spec by lia.
  rewrite (prefix_member n _ _ e p (size ss) Hinv Hp Hnn).
  rewrite (suffix_member n _ _ e p (size ss) Hinv Hp Hnn).
  rewrite (Contains_spec Hp).
  repeat split; try done.
  - intros Hlt. by destruct (Z.ltb_spec p (size ss)); [|lia].
  - intros [= Hb]. by apply Z.ltb_lt.
  - intros Hlt. by destruct (Z.ltb_spec p (size ss)); [lia|].
  - intros [= Hb]. by apply Z.ltb_ge.
Qed.

Lemma X3_views_membership_witness :
  let ss := mkSet 2 [2; 4; 3; 1; 0] [4; 3; 0; 2; 1] in
  ∃ c a, Content ss = Return c ss ∧ Absent ss = Return a ss ∧
    (4 ∈ c ↔ Contains 4 ss = Return true ss) ∧
    (4 ∈ a ↔ Contains 4 ss = Return false ss).
Proof.
  intros ss. apply (X3_views_membership 5 ss 4 reachable_after_example).
  - simpl. lia.
  - lia.
Defined.

(** X4.  In every reachable state the number of elements of [[0, n)] for
    which [Contains] returns [true] is [size], or [0] when [size] is
    negative. *)
Theorem X4_size_counts_members n ss :
  reachable n ss →
  length (filter (λ e, member ss e = true) (seqZ 0 n)) = Z.to_nat (size ss).
Proof.
  intros [Hinv _ Hsz]%reachable_wf.
  pose proof (inverse_values_length _ _ _ Hinv) as Hlen.
  rewrite <- (inverse_Permutation _ _ _ Hinv).
  rewrite <- (take_drop (Z.to_nat (size ss)) (values ss)) at 1.
  rewrite filter_app, filter_all, filter_none.
  - rewrite app_nil_r, length_take. lia.
  - apply Forall_forall. intros x Hx.
    apply list_elem_of_lookup in Hx as (i & Hi). rewrite lookup_drop in Hi.
    pose proof (lookup_lt_Some _ _ _ Hi).
    assert (index (values ss) (Z.of_nat (Z.to_nat (size ss) + i)) = Some x) as Hv.
    { apply index_Some. by rewrite Nat2Z.id; split; [lia|]. }
    apply (inverse_index _ _ _ Hinv) in Hv.
    rewrite (member_spec _ _ _ Hv).
    by destruct (Z.ltb_spec (Z.of_nat (Z.to_nat (size ss) + i)) (size ss)); [lia|].
  - apply Forall_forall. intros x Hx.
    apply elem_of_take in Hx as (i & Hi & Hlt).
    pose proof (lookup_lt_Some _ _ _ Hi).
    assert (index (values ss) (Z.of_nat i) = Some x) as Hv.
    { apply index_Some. by rewrite Nat2Z.id; split; [lia|]. }
    apply (inverse_index _ _ _ Hinv) in Hv.
    rewrite (member_spec _ _ _ Hv).
    by destruct (Z.ltb_spec (Z.of_nat i) (size ss)); [|lia].
Qed.

Lemma X4_size_counts_members_witness :
  let ss := mkSet 2 [2; 4; 3; 1; 0] [4; 3; 0; 2; 1] in
  length (filter (λ e, member ss e = true) (seqZ 0 5)) = Z.to_nat (size ss).
Proof.
  intros ss. apply (X4_size_counts_members 5 ss reachable_after_example).
Defined.

(** ** Insert and Remove as operations on the set of members *)

Lemma member_unfold ss e :
  member ss e = from_option (λ p, p <? size ss) false (index (positions ss) e).
Proof.
  destruct (index (positions ss) e) as [p|] eqn:Hp; simpl.
  - by apply member_spec.
  - by apply member_outside.
Qed.

(** The positions after exchanging the values [v1] and [v2]. *)
Lemma index_exchanged n vs ps p1 p2 v1 v2 e :
  inverse n vs ps → index vs p1 = Some v1 → index vs p2 = Some v2 →
  index (<[Z.to_nat v2 := p1]> (<[Z.to_nat v1 := p2]> ps)) e
  = if decide (e = v2) then Some p1
    else if decide (e = v1) then Some p2 else index ps e.
Proof.
  intros Hinv H1 H2.
  pose proof (index_range _ _ _ (proj1 (inverse_index _ _ _ Hinv _ _) H1)).
  pose proof (index_range _ _ _ (proj1 (inverse_index _ _ _ Hinv _ _) H2)).
  by rewrite !index_insert by (rewrite ?length_insert; lia).
Qed.

Lemma inserted_member_other n ss elem p v2 e :
  inverse n (values ss) (positions ss) →
  index (positions ss) elem = Some p → size ss ≤ p →
  index (values ss) (size ss) = Some v2 →
  e ≠ elem → member (inserted ss elem p v2) e = member ss e.
Proof.
  intros Hinv Hp Hge Hv2 Hne.
  pose proof (proj2 (inverse_index _ _ _ Hinv _ _) Hp) as Hv.
  pose proof (proj1 (inverse_index _ _ _ Hinv _ _) Hv2) as Hs.
  rewrite !member_unfold. simpl positions. simpl size.
  rewrite (index_exchanged n _ _ p (size ss) elem v2 e Hinv Hv Hv2).
  repeat case_decide; try done.
  - subst e. rewrite Hs. simpl.
    assert (p ≠ size ss) by (intros Heq; rewrite Heq in Hv; congruence).
    destruct (Z.ltb_spec p (size ss + 1)), (Z.ltb_spec (size ss) (size ss));
      try done; lia.
  - destruct (index (positions ss) e) as [q|] eqn:Hq; [|done]. simpl.
    assert (q ≠ size ss).
    { intros ->. apply (inverse_index _ _ _ Hinv) in Hq. congruence. }
    destruct (Z.ltb_spec q (size ss + 1)), (Z.ltb_spec q (size ss));
      try done; lia.
Qed.

(** The effect of [Insert] on the set of members. *)
Lemma Insert_effect n ss elem :
  invariant n ss → 0 ≤ elem < n →
  ∃ ss', Insert elem ss = Return None ss' ∧
    invariant n ss' ∧
    member ss' elem = true ∧
    (∀ e, e ≠ elem → member ss' e = member ss e) ∧
    size ss' = size ss + (if member ss elem then 0 else 1).
Proof.
  intros [Hwf Hnn] He. pose proof Hwf as [Hinv Hcap Hsz].
  destruct (inverse_position Hinv elem He) as (p & Hp & Hpr).
  rewrite (member_spec _ _ _ Hp).
  destruct (Z.ltb_spec p (size ss)) as [Hlt|Hge].
  - exists ss. split; [by apply (Insert_present Hinv Hp)|].
    split; [done|]. split; [|split; [done|lia]].
    rewrite (member_spec _ _ _ Hp). by apply Z.ltb_lt.
  - destruct (inverse_value Hinv (size ss)) as (v2 & Hv2 & _); [lia|].
    pose proof (Insert_absent Hinv Hp v2 Hcap Hge Hv2) as Hrun.
    exists (inserted ss elem p v2). split; [done|].
    split; [|split; [|split]].
    + split; [by eapply Insert_wf|simpl; lia].
    + rewrite (member_spec _ _ _ (inserted_position _ _ _ _ _ Hinv Hp Hv2)).
      simpl. apply Z.ltb_lt. lia.
    + intros e Hne. by apply (inserted_member_other n).
    + done.
Qed.

(** X5.  On a state satisfying the invariants and for [0 <= elem < n],
    [Insert(elem)] returns [nil] and adds [elem] to the set and nothing
    else: the invariants hold afterwards, [elem] is a member, the membership
    of every other element is what it was, and [size] grows by one exactly
    when [elem] was absent. *)
Theorem X5_Insert_adds_elem n ss elem :
  invariant n ss → 0 ≤ elem < n →
  ∃ ss', Insert elem ss = Return None ss' ∧
    invariant n ss' ∧
    member ss' elem = true ∧
    (∀ e, e ≠ elem → member ss' e = member ss e) ∧
    size ss' = size ss + (if member ss elem then 0 else 1).
Proof. apply Insert_effect. Qed.

Lemma X5_Insert_adds_elem_witness :
  let ss := mkSet 2 [2; 4; 3; 1; 0] [4; 3; 0; 2; 1] in
  ∃ ss', Insert 1 ss = Return None ss' ∧
    invariant 5 ss' ∧
    member ss' 1 = true ∧
    (∀ e, e ≠ 1 → member ss' e = member ss e) ∧
    size ss' = size ss + (if member ss 1 then 0 else 1).
Proof.
  intros ss. apply (X5_Insert_adds_elem 5 ss 1); [|lia].
  split; [|simpl; lia]. apply reachable_wf, reachable_after_example.
Defined.

(** The effect of [Remove] of a member on the set of members. *)
Lemma Remove_effect n ss elem :
  wf n ss → Contains elem ss = Return true ss →
  ∃ ss', Remove elem ss = Return None ss' ∧
    invariant n ss' ∧
    size ss' = size ss - 1 ∧
    Contains elem ss' = Return false ss' ∧
    (∀ e, e ≠ elem → member ss' e = member ss e).
Proof.
  intros Hwf (_ & p & Hp & Hb)%Contains_Return.
  symmetry in Hb. apply Z.ltb_lt in Hb.
  pose proof Hwf as [Hinv Hcap Hsz].
  pose proof (position_in_range Hinv Hp) as [He Hpr].
  pose proof (proj2 (inverse_index _ _ _ Hinv _ _) Hp) as Hv.
  destruct (inverse_value Hinv (size ss - 1)) as (v2 & Hv2 & _); [lia|].
  pose proof (proj1 (inverse_index _ _ _ Hinv _ _) Hv2) as Hs.
  pose proof (Remove_present Hinv Hp v2 Hcap Hb (proj2 Hsz) Hv2) as Hrun.
  eexists. split; [exact Hrun|].
  assert (∀ e, index (<[Z.to_nat v2 := p]>
                        (<[Z.to_nat elem := size ss - 1]> (positions ss))) e
               = if decide (e = v2) then Some p
                 else if decide (e = elem) then Some (size ss - 1)
                 else index (positions ss) e) as Hidx.
  { intros e. by apply (index_exchanged n (values ss)). }
  split; [|split; [done|split]].
  - split; [by eapply Remove_wf|simpl; lia].
  - assert (index (<[Z.to_nat v2 := p]>
                     (<[Z.to_nat elem := size ss - 1]> (positions ss))) elem
            = Some (size ss - 1)) as He'.
    { rewrite Hidx. repeat case_decide; try done. subst v2. congruence. }
    rewrite (Contains_spec (ss := mkSet _ _ _) He'). simpl.
    by destruct (Z.ltb_spec (size ss - 1) (size ss - 1)); [lia|].
  - intros e Hne. rewrite !member_unfold. simpl. rewrite Hidx.
    repeat case_decide; try done.
    + subst e. rewrite Hs. simpl.
      assert (p ≠ size ss - 1) by (intros Heq; rewrite Heq in Hv; congruence).
      destruct (Z.ltb_spec p (size ss - 1)), (Z.ltb_spec (size ss - 1) (size ss));
        try done; lia.
    + destruct (index (positions ss) e) as [q|] eqn:Hq; [|done]. simpl.
      assert (q ≠ size ss - 1).
      { intros ->. apply (inverse_index _ _ _ Hinv) in Hq. congruence. }
      destruct (Z.ltb_spec q (size ss - 1)), (Z.ltb_spec q (size ss));
        try done; lia.
Qed.

(** X6.  In a reachable state, [Remove(elem)] of an element for which
    [Contains] returns [true] returns [nil] and removes [elem] and nothing
    else: [size] drops by one, the invariants hold afterwards,
    [Contains(elem)] returns [false], and the membership of every other
    element is what it was. *)
Theorem X6_Remove_member n ss elem :
  reachable n ss → Contains elem ss = Return true ss →
  ∃ ss', Remove elem ss = Return None ss' ∧
    invariant n ss' ∧
    size ss' = size ss - 1 ∧
    Contains elem ss' = Return false ss' ∧
    (∀ e, e ≠ elem → member ss' e = member ss e).
Proof. intros Hwf%reachable_wf. by apply Remove_effect. Qed.

Lemma X6_Remove_member_witness :
  let ss := mkSet 2 [2; 4; 3; 1; 0] [4; 3; 0; 2; 1] in
  ∃ ss', Remove 2 ss = Return None ss' ∧
    invariant 5 ss' ∧
    size ss' = size ss - 1 ∧
    Contains 2 ss' = Return false ss' ∧
    (∀ e, e ≠ 2 → member ss' e = member ss e).
Proof.
  intros ss. apply (X6_Remove_member 5 ss 2 reachable_after_example).
  vm_compute. reflexivity.
Defined.

(** X7.  In a reachable state, [Remove(elem)] of a member found at index
    [p] moves the last element of [Content()] into slot [p] and drops the
    last slot; every other element of [Content()] keeps its place. *)
Theorem X7_Remove_moves_last n ss elem :
  reachable n ss → Contains elem ss = Return true ss →
  ∃ p last c ss',
    index (positions ss) elem = Some p ∧
    Content ss = Return c ss ∧
    index c (size ss - 1) = Some last ∧
    Remove elem ss = Return None ss' ∧
    Content ss'
    = Return (take (Z.to_nat (size ss - 1)) (<[Z.to_nat p := last]> c)) ss'.
Proof.
  intros Hwf%reachable_wf (_ & p & Hp & Hb)%Contains_Return.
  symmetry in Hb. apply Z.ltb_lt in Hb.
  pose proof Hwf as [Hinv Hcap Hsz].
  pose proof (inverse_values_length _ _ _ Hinv) as Hlen.
  pose proof (position_in_range Hinv Hp) as [He Hpr].
  destruct (inverse_value Hinv (size ss - 1)) as (v2 & Hv2 & _); [lia|].
  pose proof (Remove_present Hinv Hp v2 Hcap Hb (proj2 Hsz) Hv2) as Hrun.
  exists p, v2, (take (Z.to_nat (size ss)) (values ss)). eexists.
  split; [done|]. split; [apply Content_spec; lia|].
  split; [|split; [exact Hrun|]].
  - apply index_Some in Hv2 as [_ Hv2]. apply index_Some.
    rewrite length_take. split; [lia|].
    rewrite lookup_take_lt by lia. done.
  - rewrite Content_spec by (simpl; rewrite !length_insert; lia).
    simpl. f_equal.
    rewrite take_insert_ge by lia.
    rewrite <- take_insert_lt by lia.
    rewrite take_take. f_equal. lia.
Qed.

Lemma X7_Remove_moves_last_witness :
  let ss := mkSet 3 [2; 3; 4; 1; 0] [4; 3; 0; 1; 2] in
  ∃ p last c ss',
    index (positions ss) 2 = Some p ∧
    Content ss = Return c ss ∧
    index c (size ss - 1) = Some last ∧
    Remove 2 ss = Return None ss' ∧
    Content ss'
    = Return (take (Z.to_nat (size ss - 1)) (<[Z.to_nat p := last]> c)) ss'.
Proof.
  intros ss. apply (X7_Remove_moves_last 5 ss 2); [|vm_compute; reflexivity].
  apply (reachable_exec 5 (CInsert 4) (mkSet 2 [2; 3; 0; 1; 4] [2; 3; 0; 1; 4]));
    [|vm_compute; reflexivity].
  apply (reachable_exec 5 (CInsert 3) (mkSet 1 [2; 1; 0; 3; 4] [2; 1; 0; 3; 4]));
    [|vm_compute; reflexivity].
  apply (reachable_exec 5 (CInsert 2) (mkSet 0 [0; 1; 2; 3; 4] [0; 1; 2; 3; 4]));
    [|vm_compute; reflexivity].
  apply reachable_fresh.
Defined.

(** X8.  In a reachable state with [size > min_int], [Remove(elem)] of an
    element for which [Contains] returns [false] returns [nil] with both
    slices as they were and [size] one smaller; when [size] was positive,
    the last element of the content, [values[size-1]], was a member and is
    one no more. *)
Theorem X8_Remove_absent_shrinks n ss elem :
  reachable n ss → Contains elem ss = Return false ss → min_int < size ss →
  let ss' := mkSet (size ss - 1) (values ss) (positions ss) in
  Remove elem ss = Return None ss' ∧
  (0 < size ss →
   ∃ v, index (values ss) (size ss - 1) = Some v ∧
     member ss v = true ∧ member ss' v = false).
Proof.
  intros Hwf%reachable_wf (_ & p & Hp & Hb)%Contains_Return Hmin ss'.
  symmetry in Hb. apply Z.ltb_ge in Hb.
  pose proof Hwf as [Hinv Hcap Hsz]. split.
  - by apply (Remove_absent Hinv Hp).
  - intros Hpos.
    destruct (inverse_value Hinv (size ss - 1)) as (v & Hv & _); [lia|].
    pose proof (proj1 (inverse_index _ _ _ Hinv _ _) Hv) as Hq.
    exists v. split; [done|].
    rewrite (member_spec ss v _ Hq), (member_spec ss' v _ Hq). simpl.
    split; [apply Z.ltb_lt|apply Z.ltb_ge]; lia.
Qed.

Lemma X8_Remove_absent_shrinks_witness :
  let ss := mkSet 2 [2; 4; 3; 1; 0] [4; 3; 0; 2; 1] in
  let ss' := mkSet (size ss - 1) (values ss) (positions ss) in
  Remove 0 ss = Return None ss' ∧
  (0 < size ss →
   ∃ v, index (values ss) (size ss - 1) = Some v ∧
     member ss v = true ∧ member ss' v = false).
Proof.
  intros ss. apply (X8_Remove_absent_shrinks 5 ss 0 reachable_after_example).
  - vm_compute. reflexivity.
  - vm_compute. reflexivity.
Defined.

(** ** Elements outside the range *)

(** X9.  In any state, [Insert(elem)] and [Remove(elem)] with
    [elem >= len(values)] return the error built from [elem] and the
    capacity, and leave the struct as it was. *)
Theorem X9_above_range_error ss elem :
  Z.of_nat (length (values ss)) ≤ elem →
  Insert elem ss
  = Return (Some (Errorf elem (Z.of_nat (length (values ss))))) ss ∧
  Remove elem ss
  = Return (Some (Errorf elem (Z.of_nat (length (values ss))))) ss.
Proof. intros He. split; [by apply Insert_above|by apply Remove_above]. Qed.

Lemma X9_above_range_error_witness :
  let ss := mkSet 2 [2; 4; 3; 1; 0] [4; 3; 0; 2; 1] in
  Insert 7 ss = Return (Some (Errorf 7 5)) ss ∧
  Remove 7 ss = Return (Some (Errorf 7 5)) ss.
Proof.
  intros ss. apply (X9_above_range_error ss 7). simpl. lia.
Defined.

(** X10.  In any state, [Insert(elem)], [Remove(elem)] and
    [Contains(elem)] with a negative [elem] panic, the struct being as it
    was before the call. *)
Theorem X10_negative_elem_panics ss elem :
  elem < 0 →
  Insert elem ss = Panic ss ∧
  Remove elem ss = Panic ss ∧
  Contains elem ss = Panic ss.
Proof.
  intros He. split; [by apply Insert_below|]. split; [by apply Remove_below|].
  unfold Contains, bind, load_positions.
  by rewrite (proj2 (index_None (positions ss) elem)) by lia.
Qed.

Lemma X10_negative_elem_panics_witness :
  let ss := mkSet 2 [2; 4; 3; 1; 0] [4; 3; 0; 2; 1] in
  Insert (-3) ss = Panic ss ∧
  Remove (-3) ss = Panic ss ∧
  Contains (-3) ss = Panic ss.
Proof.
  intros ss. apply (X10_negative_elem_panics ss (-3)). lia.
Defined.

(** ** Compositions *)

Lemma Insert_returns n ss elem :
  invariant n ss → 0 ≤ elem < n → ∃ ss', Insert elem ss = Return None ss'.
Proof.
  intros [[Hinv Hcap Hsz] Hnn] He.
  destruct (inverse_position Hinv elem He) as (p & Hp & Hpr).
  destruct (Z.lt_ge_cases p (size ss)) as [Hlt|Hge].
  - exists ss. by apply (Insert_present Hinv Hp).
  - destruct (inverse_value Hinv (size ss)) as (v2 & Hv2 & _); [lia|].
    eexists. by apply (Insert_absent Hinv Hp v2).
Qed.

(** [Remove] of an element that sits at or after index [size - 1]: the
    boundary moves, no entry does. *)
Lemma Remove_no_swap n ss elem p :
  inverse n (values ss) (positions ss) → n ≤ max_int →
  index (positions ss) elem = Some p →
  size ss - 1 ≤ p → min_int < size ss ≤ n + 1 →
  Remove elem ss = Return None (mkSet (size ss - 1) (values ss) (positions ss)).
Proof.
  intros Hinv Hn Hp Hge Hsz. destruct (position_in_range Hinv Hp) as [He Hpr].
  unfold Remove, bind, N, load_positions. simpl.
  rewrite (inverse_values_length _ _ _ Hinv).
  destruct (Z.geb_spec elem n); [lia|]. rewrite Hp. simpl.
  rewrite wrap_int by (unfold is_int, min_int, max_int in *; lia).
  by destruct (Z.geb_spec p (size ss - 1)); [|lia].
Qed.

(** X11.  On a state satisfying the invariants and for [0 <= elem < n], a
    second [Insert(elem)] right after the first returns [nil] and changes
    nothing. *)
Theorem X11_Insert_twice n ss elem :
  invariant n ss → 0 ≤ elem < n →
  ∃ ss1, Insert elem ss = Return None ss1 ∧ Insert elem ss1 = Return None ss1.
Proof.
  intros Hinv He. destruct (Insert_returns n ss elem Hinv He) as [ss1 Hrun].
  exists ss1. split; [done|]. destruct Hinv as [Hwf _].
  pose proof (Insert_wf _ _ _ _ _ Hwf Hrun) as [Hinv1 _ _].
  destruct (Insert_member _ _ _ _ _ Hwf He Hrun) as (_ & p & Hp & Hlt).
  by apply (Insert_present Hinv1 Hp).
Qed.

Lemma X11_Insert_twice_witness :
  let ss := mkSet 2 [2; 4; 3; 1; 0] [4; 3; 0; 2; 1] in
  ∃ ss1, Insert 1 ss = Return None ss1 ∧ Insert 1 ss1 = Return None ss1.
Proof.
  intros ss. apply (X11_Insert_twice 5 ss 1); [|lia].
  split; [|simpl; lia]. apply reachable_wf, reachable_after_example.
Defined.

(** X12.  On a state satisfying the invariants, [Insert(elem)] of an absent
    element followed by [Remove(elem)] gives back the same [size], the same
    [Content()] in the same order, and the same membership for every
    element. *)
Theorem X12_Insert_Remove_restores n ss elem :
  invariant n ss → Contains elem ss = Return false ss →
  ∃ ss1 ss2 c,
    Insert elem ss = Return None ss1 ∧
    Remove elem ss1 = Return None ss2 ∧
    size ss2 = size ss ∧
    Content ss = Return c ss ∧
    Content ss2 = Return c ss2 ∧
    ∀ e, member ss2 e = member ss e.
Proof.
  intros [Hwf Hnn] (_ & p & Hp & Hb)%Contains_Return.
  symmetry in Hb. apply Z.ltb_ge in Hb.
  pose proof Hwf as [Hinv Hcap Hsz].
  pose proof (inverse_values_length _ _ _ Hinv) as Hlen.
  pose proof (position_in_range Hinv Hp) as [He Hpr].
  pose proof (proj2 (inverse_index _ _ _ Hinv _ _) Hp) as Hv.
  destruct (inverse_value Hinv (size ss)) as (v2 & Hv2 & _); [lia|].
  pose proof (proj1 (inverse_index _ _ _ Hinv _ _) Hv2) as Hs.
  pose proof (Insert_absent Hinv Hp v2 Hcap Hb Hv2) as Hrun.
  fold (inserted ss elem p v2) in Hrun.
  pose proof (Insert_wf _ _ _ _ _ Hwf Hrun) as [Hinv1 _ _].
  pose proof (inserted_position _ _ _ _ _ Hinv Hp Hv2) as Hp1.
  pose proof (Remove_no_swap n _ elem (size ss) Hinv1 Hcap Hp1) as Hrem.
  exists (inserted ss elem p v2). eexists.
  exists (take (Z.to_nat (size ss)) (values ss)).
  split; [done|]. split; [apply Hrem; simpl; unfold min_int; lia|].
  split; [simpl; lia|]. split; [apply Content_spec; lia|]. split.
  - rewrite Content_spec by (simpl; rewrite !length_insert; lia).
    simpl. f_equal. replace (size ss + 1 - 1) with (size ss) by lia.
    by rewrite !take_insert_ge by lia.
  - intros e. rewrite !member_unfold. simpl.
    rewrite (index_exchanged n _ _ p (size ss) elem v2 e Hinv Hv Hv2).
    replace (size ss + 1 - 1) with (size ss) by lia.
    repeat case_decide; subst; try done.
    + rewrite Hs. simpl.
      by destruct (Z.ltb_spec p (size ss)), (Z.ltb_spec (size ss) (size ss));
        try lia.
    + rewrite Hp. simpl.
      by destruct (Z.ltb_spec p (size ss)), (Z.ltb_spec (size ss) (size ss));
        try lia.
Qed.

Lemma X12_Insert_Remove_restores_witness :
  let ss := mkSet 2 [2; 4; 3; 1; 0] [4; 3; 0; 2; 1] in
  ∃ ss1 ss2 c,
    Insert 0 ss = Return None ss1 ∧
    Remove 0 ss1 = Return None ss2 ∧
    size ss2 = size ss ∧
    Content ss = Return c ss ∧
    Content ss2 = Return c ss2 ∧
    ∀ e, member ss2 e = member ss e.
Proof.
  intros ss. apply (X12_Insert_Remove_restores 5 ss 0);
    [|vm_compute; reflexivity].
  split; [|simpl; lia]. apply reachable_wf, reachable_after_example.
Defined.

(** ** Clear, negative sizes, and capacity zero *)

(** X13.  From every reachable state, negative sizes included, [Clear()]
    leads to a state that satisfies the invariants and in which [Contains]
    returns [false] for every element of [[0, n)]. *)
Theorem X13_Clear_restores_invariant n ss :
  reachable n ss →
  ∃ ss', Clear ss = Return tt ss' ∧ invariant n ss' ∧
    ∀ e, 0 ≤ e < n → Contains e ss' = Return false ss'.
Proof.
  intros Hwf%reachable_wf. pose proof (Clear_wf _ _ Hwf) as Hwf'.
  exists (mkSet 0 (values ss) (positions ss)).
  split; [done|]. split; [by split|]. intros e He.
  destruct (inverse_position (wf_inverse _ _ Hwf') e He) as (p & Hp & Hpr).
  rewrite (Contains_spec Hp). simpl.
  by destruct (Z.ltb_spec p 0); [lia|].
Qed.

Lemma X13_Clear_restores_invariant_witness :
  let ss := mkSet (-1) [0; 1; 2; 3; 4] [0; 1; 2; 3; 4] in
  ∃ ss', Clear ss = Return tt ss' ∧ invariant 5 ss' ∧
    ∀ e, 0 ≤ e < 5 → Contains e ss' = Return false ss'.
Proof.
  intros ss. apply (X13_Clear_restores_invariant 5 ss reachable_negative).
Defined.

(** X14.  In a reachable state with a negative [size], for every [e] in
    [[0, n)], [Contains(e)] returns [false] and [Insert(e)] panics (on the
    read of [values[size]] in [swap]) with the struct as it was. *)
Theorem X14_negative_size n ss e :
  reachable n ss → size ss < 0 → 0 ≤ e < n →
  Contains e ss = Return false ss ∧ Insert e ss = Panic ss.
Proof.
  intros [Hinv _ _]%reachable_wf Hneg He.
  destruct (inverse_position Hinv e He) as (p & Hp & Hpr). split.
  - rewrite (Contains_spec Hp). by destruct (Z.ltb_spec p (size ss)); [lia|].
  - apply (Insert_absent_negative Hinv Hp); lia.
Qed.

Lemma X14_negative_size_witness :
  let ss := mkSet (-1) [0; 1; 2; 3; 4] [0; 1; 2; 3; 4] in
  Contains 3 ss = Return false ss ∧ Insert 3 ss = Panic ss.
Proof.
  intros ss. apply (X14_negative_size 5 ss 3 reachable_negative).
  - simpl. lia.
  - lia.
Defined.

(** X15.  A set of capacity [0] has one reachable state, the one [New(0)]
    returns: every [Insert] and [Remove] with [elem >= 0] returns the error
    and changes nothing. *)
Theorem X15_capacity_zero ss :
  reachable 0 ss →
  ss = mkSet 0 [] [] ∧
  ∀ e, 0 ≤ e →
    Insert e ss = Return (Some (Errorf e 0)) ss ∧
    Remove e ss = Return (Some (Errorf e 0)) ss.
Proof.
  intros Hr. assert (ss = mkSet 0 [] []) as ->.
  { induction Hr as [ss _ Hnew|c ss ss' _ IH Hrun].
    - rewrite New_spec in Hnew by lia. by injection Hnew as <-.
    - subst ss. destruct c as [e|e|]; simpl in Hrun.
      + apply bind_Return in Hrun as (r & ss1 & Hrun & [= <-]).
        destruct (Z.lt_ge_cases e 0).
        * by rewrite Insert_below in Hrun.
        * rewrite Insert_above in Hrun by (simpl; lia). congruence.
      + apply bind_Return in Hrun as (r & ss1 & Hrun & [= <-]).
        destruct (Z.lt_ge_cases e 0).
        * by rewrite Remove_below in Hrun.
        * rewrite Remove_above in Hrun by (simpl; lia). congruence.
      + by injection Hrun as <-. }
  split; [done|]. intros e He. split.
  - by rewrite Insert_above by (simpl; lia).
  - by rewrite Remove_above by (simpl; lia).
Qed.

Lemma X15_capacity_zero_witness :
  mkSet 0 [] [] = mkSet 0 [] [] ∧
  ∀ e, 0 ≤ e →
    Insert e (mkSet 0 [] []) = Return (Some (Errorf e 0)) (mkSet 0 [] []) ∧
    Remove e (mkSet 0 [] []) = Return (Some (Errorf e 0)) (mkSet 0 [] []).
Proof.
  apply (X15_capacity_zero (mkSet 0 [] [])).
  apply reachable_New; [|vm_compute; reflexivity].
  unfold is_int, min_int, max_int. lia.
Defined.

(** ** swap *)

Lemma index_ext (l k : list Z) :
  length l = length k → (∀ i, index l i = index k i) → l = k.
Proof.
  intros Hlen Hidx. apply list_eq. intros i.
  destruct (decide (i < length l)%nat) as [Hi|Hi].
  - pose proof (Hidx (Z.of_nat i)) as H. unfold index in H.
    rewrite <- Hlen in H.
    destruct (Z.leb_spec 0 (Z.of_nat i)),
      (Z.ltb_spec (Z.of_nat i) (Z.of_nat (length l))); try lia.
    simpl in H. by rewrite Nat2Z.id in H.
  - rewrite !(proj2 (lookup_ge_None _ _)); [done|lia|lia].
Qed.

(** X16.  On a pair of slices that are inverse to each other, [swap(p1, p2)]
    with both indices in [[0, n)] returns, leaves [size] alone, exchanges
    the entries of [values] at [p1] and [p2] and no other, keeps the two
    slices inverse to each other, and is undone by a second
    [swap(p1, p2)]. *)
Theorem X16_swap n ss p1 p2 :
  inverse n (values ss) (positions ss) → 0 ≤ p1 < n → 0 ≤ p2 < n →
  ∃ v1 v2 ss',
    index (values ss) p1 = Some v1 ∧ index (values ss) p2 = Some v2 ∧
    swap p1 p2 ss = Return tt ss' ∧
    size ss' = size ss ∧
    index (values ss') p1 = Some v2 ∧ index (values ss') p2 = Some v1 ∧
    (∀ i, i ≠ p1 → i ≠ p2 → index (values ss') i = index (values ss) i) ∧
    index (positions ss') v1 = Some p2 ∧ index (positions ss') v2 = Some p1 ∧
    inverse n (values ss') (positions ss') ∧
    swap p1 p2 ss' = Return tt ss.
Proof.
  intros Hinv Hp1 Hp2.
  destruct (inverse_value Hinv p1 Hp1) as (v1 & H1 & Hr1).
  destruct (inverse_value Hinv p2 Hp2) as (v2 & H2 & Hr2).
  pose proof (inverse_values_length _ _ _ Hinv) as Hlv.
  pose proof (inverse_positions_length _ _ _ Hinv) as Hlp.
  pose proof (proj1 (inverse_index _ _ _ Hinv _ _) H1) as Hq1.
  pose proof (proj1 (inverse_index _ _ _ Hinv _ _) H2) as Hq2.
  pose proof (inverse_exchange Hinv p1 p2 v1 v2 H1 H2) as Hinv'.
  pose proof (swap_spec n ss p1 p2 v1 v2 Hinv H1 H2) as Hrun.
  assert (∀ i, index (<[Z.to_nat p2 := v1]> (<[Z.to_nat p1 := v2]> (values ss))) i
               = if decide (i = p2) then Some v1
                 else if decide (i = p1) then Some v2
                 else index (values ss) i) as Hvi.
  { intros i. by rewrite !index_insert by (rewrite ?length_insert; lia). }
  pose proof (λ e, index_exchanged n _ _ p1 p2 v1 v2 e Hinv H1 H2) as Hpi.
  set (ss' := mkSet (size ss)
                (<[Z.to_nat p2 := v1]> (<[Z.to_nat p1 := v2]> (values ss)))
                (<[Z.to_nat v2 := p1]> (<[Z.to_nat v1 := p2]> (positions ss)))).
  assert (index (values ss') p1 = Some v2) as Ha.
  { simpl. rewrite Hvi. repeat case_decide; try done. congruence. }
  assert (index (values ss') p2 = Some v1) as Hb.
  { simpl. rewrite Hvi. by case_decide. }
  exists v1, v2, ss'.
  split; [done|]. split; [done|]. split; [exact Hrun|].
  split; [done|]. split; [done|]. split; [done|].
  split; [|split; [|split; [|split]]].
  - intros i Hi1 Hi2. simpl. rewrite Hvi. by repeat case_decide.
  - simpl. rewrite Hpi. repeat case_decide; try done. subst. congruence.
  - simpl. rewrite Hpi. by case_decide.
  - done.
  - rewrite (swap_spec n ss' p1 p2 v2 v1 Hinv' Ha Hb). simpl.
    transitivity (Return tt (mkSet (size ss) (values ss) (positions ss)));
      [|by rewrite Set_eta].
    f_equal. f_equal.
    + apply index_ext; [by rewrite !length_insert|]. intros i.
      rewrite !index_insert by (rewrite ?length_insert; lia).
      repeat case_decide; subst; done.
    + apply index_ext; [by rewrite !length_insert|]. intros i.
      rewrite !index_insert by (rewrite ?length_insert; lia).
      repeat case_decide; subst; done.
Qed.

Lemma X16_swap_witness :
  let ss := mkSet 2 [2; 4; 3; 1; 0] [4; 3; 0; 2; 1] in
  ∃ v1 v2 ss',
    index (values ss) 1 = Some v1 ∧ index (values ss) 3 = Some v2 ∧
    swap 1 3 ss = Return tt ss' ∧
    size ss' = size ss ∧
    index (values ss') 1 = Some v2 ∧ index (values ss') 3 = Some v1 ∧
    (∀ i, i ≠ 1 → i ≠ 3 → index (values ss') i = index (values ss) i) ∧
    index (positions ss') v1 = Some 3 ∧ index (positions ss') v2 = Some 1 ∧
    inverse 5 (values ss') (positions ss') ∧
    swap 1 3 ss' = Return tt ss.
Proof.
  intros ss. apply (X16_swap 5 ss 1 3); [|lia|lia].
  apply (wf_inverse 5 ss), reachable_wf, reachable_after_example.
Defined.

(** ** String *)

Lemma append_cons a (s1 s2 : string) :
  Stdlib.Strings.String.String a s1 +:+ s2
  = Stdlib.Strings.String.String a (s1 +:+ s2).
Proof. reflexivity. Qed.

Lemma append_assoc (s1 s2 s3 : string) :
  (s1 +:+ s2) +:+ s3 = s1 +:+ (s2 +:+ s3).
Proof.
  induction s1 as [|a s1 IH]; [done|]. by rewrite !append_cons, IH.
Qed.

Lemma append_empty_r (s : string) : s +:+ "" = s.
Proof. induction s as [|a s IH]; [done|]. by rewrite append_cons, IH. Qed.

(** What the loop of [String] writes for the entries [l]: each one followed
    by the separator. *)
Lemma join_snoc sep l x :
  join sep (l ++ [x]) = foldr (λ y acc, y +:+ sep +:+ acc) "" l +:+ x.
Proof.
  induction l as [|y l IH]; [done|].
  change ((y :: l) ++ [x]) with (y :: (l ++ [x])).
  cbn [join foldr]. rewrite IH.
  destruct (l ++ [x]) eqn:E; [by destruct l|].
  by rewrite !append_assoc.
Qed.

Lemma entry_spec ss v p :
  index (positions ss) v = Some p →
  entry ss v = fmt_int v +:+ ": " +:+ fmt_bool (p <? size ss).
Proof. intros Hp. unfold entry. by rewrite (member_spec _ _ _ Hp). Qed.

Lemma String_loop_spec ss s :
  ∀ v bf,
    (∀ i p, s !! i = Some p →
            index (positions ss) (v + Z.of_nat i) = Some p) →
    String_loop s v bf ss
    = Return (bf +:+ foldr (λ y acc, y +:+ ", " +:+ acc) ""
                       (entry ss <$> seqZ v (Z.of_nat (length s)))) ss.
Proof.
  induction s as [|p s IH]; intros v bf Hs.
  - simpl. unfold ret. by rewrite append_empty_r.
  - cbn [String_loop]. unfold bind at 1, get_size at 1.
    rewrite IH.
    2:{ intros i q Hi. replace (v + 1 + Z.of_nat i) with (v + Z.of_nat (S i)) by lia.
        by apply Hs. }
    f_equal. change (length (p :: s)) with (S (length s)).
    rewrite (seqZ_cons v) by lia.
    replace (Z.pred (Z.of_nat (S (length s)))) with (Z.of_nat (length s)) by lia.
    replace (Z.succ v) with (v + 1) by lia.
    cbn [fmap list_fmap foldr].
    pose proof (Hs 0%nat p eq_refl) as Hp. rewrite Z.add_0_r in Hp.
    rewrite (entry_spec _ _ _ Hp). by rewrite !append_assoc.
Qed.

(** X17.  In any state, [String()] returns, changes nothing, and renders
    the elements [0, ..., n-1] ([n] the length of [positions]) in ascending
    order between braces, separated by [", "], each as [elem: b] where [b]
    is the boolean [Contains(elem)] returns; for [n = 0] the result is
    ["{}"]. *)
Theorem X17_String n ss :
  Z.of_nat (length (positions ss)) = n →
  String ss = Return ("{" +:+ join ", " (entry ss <$> seqZ 0 n) +:+ "}") ss.
Proof.
  intros Hn. unfold String. rewrite Hn.
  destruct (Z.eqb_spec n 0) as [->|Hne]; [done|].
  rewrite slice_prefix by lia.
  unfold bind. rewrite String_loop_spec.
  2:{ intros i p [Hi Hlt]%lookup_take_Some. apply index_Some.
      rewrite Z.add_0_l, Nat2Z.id. pose proof (lookup_lt_Some _ _ _ Hi).
      split; [lia|done]. }
  rewrite length_take.
  replace (Z.of_nat (Z.to_nat (n - 1) `min` length (positions ss))) with (n - 1)
    by lia.
  destruct (index_in_range (positions ss) (n - 1)) as [lp Hlp]; [lia|].
  unfold load_positions, get_size, ret. rewrite Hlp. f_equal.
  replace n with ((n - 1) + 1) at 3 by lia.
  rewrite seqZ_app by lia. rewrite Z.add_0_l.
  change (seqZ (n - 1) 1) with [n - 1].
  rewrite fmap_app. cbn [fmap list_fmap]. rewrite join_snoc.
  rewrite (entry_spec _ _ _ Hlp). by rewrite !append_assoc.
Qed.

Lemma X17_String_witness :
  let ss := mkSet 2 [2; 4; 0; 3; 1] [2; 4; 0; 3; 1] in
  String ss = Return ("{" +:+ join ", " (entry ss <$> seqZ 0 5) +:+ "}") ss.
Proof.
  intros ss. apply (X17_String 5 ss). reflexivity.
Defined.

(** [ExampleSet_Insert]: after [Insert(2)] and [Insert(4)] on [New(5)] the
    rendering is the one the example expects; [New(0)] renders as [{}]. *)
Example ExampleSet_Insert :
  let ss0 := mkSet 0 [0; 1; 2; 3; 4] [0; 1; 2; 3; 4] in
  let ss := mkSet 2 [2; 4; 0; 3; 1] [2; 4; 0; 3; 1] in
  New 5 = Some ss0 ∧
  run [CInsert 2; CInsert 4] ss0 = Return tt ss ∧
  String ss = Return "{0: false, 1: false, 2: true, 3: false, 4: true}" ss ∧
  String (mkSet 0 [] []) = Return "{}" (mkSet 0 [] []).
Proof. repeat split; vm_compute; reflexivity. Qed.

(** ** A fresh set, and Remove followed by Insert *)

Lemma Content_elems n ss x :
  wf n ss → 0 ≤ size ss →
  x ∈ take (Z.to_nat (size ss)) (values ss) ↔ member ss x = true.
Proof.
  intros [Hinv _ Hsz] Hnn. rewrite member_unfold.
  destruct (index (positions ss) x) as [p|] eqn:Hp; simpl.
  - rewrite (prefix_member n _ _ x p (size ss) Hinv Hp Hnn).
    symmetry. apply Z.ltb_lt.
  - split; [|done]. intros (i & Hi & _)%elem_of_take.
    pose proof (lookup_lt_Some _ _ _ Hi).
    assert (index (values ss) (Z.of_nat i) = Some x) as Hx.
    { apply index_Some. by rewrite Nat2Z.id; split; [lia|]. }
    apply (inverse_index _ _ _ Hinv) in Hx. congruence.
Qed.

(** X18.  For [0 <= n <= max_int], the set [New(n)] returns is reachable
    and satisfies the invariants; on it [N()] is [n], [Size()] is [0],
    [Content()] is empty and [Absent()] lists [0, ..., n-1] in ascending
    order. *)
Theorem X18_New_views n :
  0 ≤ n ≤ max_int →
  ∃ ss, New n = Some ss ∧ reachable n ss ∧ invariant n ss ∧
    N ss = Return n ss ∧ Size ss = Return 0 ss ∧
    Content ss = Return [] ss ∧ Absent ss = Return (seqZ 0 n) ss.
Proof.
  intros Hn. assert (is_int n) as Hint by (unfold is_int, min_int; lia).
  pose proof (New_spec n (proj1 Hn)) as Hnew.
  destruct (New_wf n _ Hint Hnew) as [Hwf Hs].
  eexists. split; [exact Hnew|].
  split; [by apply reachable_New|]. split; [split; [done|simpl; lia]|].
  split; [|split; [done|split]].
  - unfold N. simpl. rewrite length_seqZ. do 2 f_equal. lia.
  - rewrite Content_spec by (simpl; rewrite length_seqZ; lia). done.
  - rewrite Absent_spec by (simpl; rewrite length_seqZ; lia). done.
Qed.

Lemma X18_New_views_witness :
  ∃ ss, New 4 = Some ss ∧ reachable 4 ss ∧ invariant 4 ss ∧
    N ss = Return 4 ss ∧ Size ss = Return 0 ss ∧
    Content ss = Return [] ss ∧ Absent ss = Return (seqZ 0 4) ss.
Proof.
  apply (X18_New_views 4). unfold max_int. lia.
Defined.

(** X19.  In a reachable state, [Remove(elem)] of a member followed by
    [Insert(elem)] gives back the same [size] and the same membership for
    every element; [Content()] holds the same elements as before, possibly
    in another order. *)
Theorem X19_Remove_Insert_restores n ss elem :
  reachable n ss → Contains elem ss = Return true ss →
  ∃ ss1 ss2 c c2,
    Remove elem ss = Return None ss1 ∧
    Insert elem ss1 = Return None ss2 ∧
    size ss2 = size ss ∧
    (∀ e, member ss2 e = member ss e) ∧
    Content ss = Return c ss ∧
    Content ss2 = Return c2 ss2 ∧
    c2 ≡ₚ c.
Proof.
  intros Hwf%reachable_wf Hc.
  pose proof Hc as (_ & p & Hp & Hb)%Contains_Return.
  symmetry in Hb. apply Z.ltb_lt in Hb.
  pose proof (position_in_range (wf_inverse _ _ Hwf) Hp) as [He Hpr].
  destruct (Remove_effect n ss elem Hwf Hc)
    as (ss1 & Hrem & Hinv1 & Hs1 & Hc1 & Hm1).
  destruct (Insert_effect n ss1 elem Hinv1 He)
    as (ss2 & Hins & [Hwf2 Hnn2] & Hin2 & Hm2 & Hs2).
  assert (member ss1 elem = false) as Hf.
  { unfold member. by rewrite Hc1. }
  assert (member ss elem = true) as Ht.
  { unfold member. by rewrite Hc. }
  rewrite Hf in Hs2.
  assert (∀ e, member ss2 e = member ss e) as Hm.
  { intros e. destruct (decide (e = elem)) as [->|Hne]; [congruence|].
    by rewrite Hm2, Hm1. }
  exists ss1, ss2, (take (Z.to_nat (size ss)) (values ss)),
    (take (Z.to_nat (size ss2)) (values ss2)).
  pose proof (inverse_values_length _ _ _ (wf_inverse _ _ Hwf)) as Hlen.
  pose proof (inverse_values_length _ _ _ (wf_inverse _ _ Hwf2)) as Hlen2.
  pose proof (wf_size _ _ Hwf). pose proof (wf_size _ _ Hwf2).
  split; [done|]. split; [done|]. split; [lia|]. split; [done|].
  split; [apply Content_spec; lia|]. split; [apply Content_spec; lia|].
  apply NoDup_Permutation.
  - pose proof (inverse_NoDup _ _ _ (wf_inverse _ _ Hwf2)) as Hnd.
    rewrite <- (take_drop (Z.to_nat (size ss2)) (values ss2)) in Hnd.
    by apply NoDup_app in Hnd as (? & _ & _).
  - pose proof (inverse_NoDup _ _ _ (wf_inverse _ _ Hwf)) as Hnd.
    rewrite <- (take_drop (Z.to_nat (size ss)) (values ss)) in Hnd.
    by apply NoDup_app in Hnd as (? & _ & _).
  - intros x. rewrite (Content_elems n ss2 x Hwf2 Hnn2).
    rewrite (Content_elems n ss x Hwf) by lia. by rewrite Hm.
Qed.

Lemma X19_Remove_Insert_restores_witness :
  let ss := mkSet 3 [2; 3; 4; 1; 0] [4; 3; 0; 1; 2] in
  ∃ ss1 ss2 c c2,
    Remove 2 ss = Return None ss1 ∧
    Insert 2 ss1 = Return None ss2 ∧
    size ss2 = size ss ∧
    (∀ e, member ss2 e = member ss e) ∧
    Content ss = Return c ss ∧
    Content ss2 = Return c2 ss2 ∧
    c2 ≡ₚ c.
Proof.
  intros ss. apply (X19_Remove_Insert_restores 5 ss 2);
    [|vm_compute; reflexivity].
  apply (reachable_exec 5 (CInsert 4) (mkSet 2 [2; 3; 0; 1; 4] [2; 3; 0; 1; 4]));
    [|vm_compute; reflexivity].
  apply (reachable_exec 5 (CInsert 3) (mkSet 1 [2; 1; 0; 3; 4] [2; 1; 0; 3; 4]));
    [|vm_compute; reflexivity].
  apply (reachable_exec 5 (CInsert 2) (mkSet 0 [0; 1; 2; 3; 4] [0; 1; 2; 3; 4]));
    [|vm_compute; reflexivity].
  apply reachable_fresh.
Defined.

(** ** The remaining tests of the package *)

(** [TestSet_Insert_error]: on [New(5)], [Insert(5)] returns an error and
    [Insert(3)] returns none. *)
Example TestSet_Insert_error :
  let ss0 := mkSet 0 [0; 1; 2; 3; 4] [0; 1; 2; 3; 4] in
  New 5 = Some ss0 ∧
  Insert 5 ss0 = Return (Some (Errorf 5 5)) ss0 ∧
  Insert 3 ss0 = Return None (mkSet 1 [3; 1; 2; 0; 4] [3; 1; 2; 0; 4]).
Proof. repeat split; vm_compute; reflexivity. Qed.

(** [TestSet_Size_empty]: [New(0).Size()] is [0]. *)
Example TestSet_Size_empty :
  New 0 = Some (mkSet 0 [] []) ∧
  Size (mkSet 0 [] []) = Return 0 (mkSet 0 [] []).
Proof. repeat split; vm_compute; reflexivity. Qed.
